(** * retry-subscription: the retry loop and the snapshot diff of
      [retryCollectionSubscription]

    A shallow embedding of the async generator [retryCollectionSubscription]
    (package version 0.1.1) and the properties its specification states.

    The generator talks to four collaborators: the wrapped [subscribe]
    function, the [onError] hook, [Math.random] and the cancellable [delay].
    Every answer of a collaborator is read from an oracle indexed by
    [outerCount], the number of the subscription attempt during which the
    question is asked; one iteration of the outer [while] asks each
    collaborator at most once, so every run of the generator corresponds to
    one choice of oracles.  What the generator does is recorded as a list of
    events.

    The numbers that enter the delay formula are IEEE 754 doubles: [NaN],
    the two infinities, or a rational, and every operation rounds its exact
    result to the nearest double, ties to even.  Counters that only ever
    hold small integers are [Z] or [nat]. *)

From Stdlib Require Import List ZArith QArith Qround Qminmax Qpower Qabs Qreduction.
From Stdlib Require Import Floats Bool Lia Lqa String.
Import ListNotations.

Set Implicit Arguments.

(** ** Keys *)

(** [Key extends string | number]: all the generator needs from a key is the
    equality test a [Map] uses. *)
Class KeyEq (Key : Type) := key_eq_dec : forall a b : Key, {a = b} + {a <> b}.

#[export] Instance string_KeyEq : KeyEq string := string_dec.
#[export] Instance Z_KeyEq : KeyEq Z := Z.eq_dec.

(** ** [Map], in insertion order *)

Module JsMap.
Section Ops.
Context {K V : Type} `{KeyEq K}.

(** A [Map<K, V>] is the list of its entries, oldest insertion first.  The
    entries of a map built with [set] from [empty] have pairwise distinct
    keys. *)
Definition t : Type := list (K * V).

Definition empty : t := [].

Fixpoint get (k : K) (m : t) : option V :=
  match m with
  | [] => None
  | (k', v) :: m' => if key_eq_dec k k' then Some v else get k m'
  end.

Definition has (k : K) (m : t) : bool :=
  match get k m with Some _ => true | None => false end.

(** The entries left by [Map.prototype.delete]: the others keep their
    order. *)
Fixpoint remove (k : K) (m : t) : t :=
  match m with
  | [] => []
  | (k', v) :: m' =>
      if key_eq_dec k k' then remove k m' else (k', v) :: remove k m'
  end.

(** [Map.prototype.delete] answers whether the key was there. *)
Definition delete (k : K) (m : t) : bool * t := (has k m, remove k m).

(** [Map.prototype.set]: a key already present keeps its position. *)
Fixpoint set (k : K) (v : V) (m : t) : t :=
  match m with
  | [] => [(k, v)]
  | (k', v') :: m' =>
      if key_eq_dec k k' then (k, v) :: m' else (k', v') :: set k v m'
  end.

Definition keys (m : t) : list K := map fst m.

Definition wf (m : t) : Prop := NoDup (keys m).
End Ops.
End JsMap.

(** ** Numbers *)

(** A JavaScript [number].  The sign of zero is not kept: nothing the
    generator does with a delay tells [-0] from [0]. *)
Inductive number : Type :=
| NaN
| Infinity (negative : bool)
| Fin (q : Q).

Definition pow2 (e : Z) : Q := Qpower 2 e.

(** The binade of a positive rational: [2^(flog2 q) <= q < 2^(flog2 q + 1)]. *)
Definition flog2 (q : Q) : Z :=
  let p := (Z.log2 (Qnum q) - Z.log2 (Zpos (Qden q)))%Z in
  if Qle_bool (pow2 p) q then p else (p - 1)%Z.

(** The nearest integer, ties to even. *)
Definition rint (q : Q) : Z :=
  let f := Qfloor q in
  match Qcompare (q - inject_Z f) (1 # 2) with
  | Lt => f
  | Gt => (f + 1)%Z
  | Eq => if Z.even f then f else (f + 1)%Z
  end.

(** The exponent of the last of the 53 bits of a double near [q]; the
    subnormal numbers share the exponent [-1074]. *)
Definition ulpExponent (q : Q) : Z := Z.max (-1074) (flog2 (Qabs q) - 52).

Definition roundToGrid (e : Z) (q : Q) : Q := inject_Z (rint (q / pow2 e)) * pow2 e.

(** The double nearest to a rational, in lowest terms; what rounds to
    [2^1024] or beyond overflows. *)
Definition roundToDouble (q : Q) : number :=
  if Qeq_bool q 0 then Fin 0
  else
    let v := roundToGrid (ulpExponent q) q in
    if Qle_bool (pow2 1024) (Qabs v)
    then Infinity (negb (Qle_bool 0 q))
    else Fin (Qred v).

(** The rationals that are doubles. *)
Definition isDouble (q : Q) : Prop := roundToDouble q = Fin (Qred q).

(** [x + y] *)
Definition fadd (x y : number) : number :=
  match x, y with
  | NaN, _ | _, NaN => NaN
  | Infinity s, Infinity s' => if Bool.eqb s s' then Infinity s else NaN
  | Infinity s, Fin _ | Fin _, Infinity s => Infinity s
  | Fin a, Fin b => roundToDouble (a + b)
  end.

(** [x * y] *)
Definition fmul (x y : number) : number :=
  match x, y with
  | NaN, _ | _, NaN => NaN
  | Infinity s, Infinity s' => Infinity (xorb s s')
  | Infinity s, Fin b | Fin b, Infinity s =>
      if Qeq_bool b 0 then NaN else Infinity (xorb s (negb (Qle_bool 0 b)))
  | Fin a, Fin b => roundToDouble (a * b)
  end.

(** [x / 2] *)
Definition fhalf (x : number) : number :=
  match x with
  | Fin a => roundToDouble (a / 2)
  | _ => x
  end.

(** [Math.min(x, y)] *)
Definition Math_min (x y : number) : number :=
  match x, y with
  | NaN, _ | _, NaN => NaN
  | Infinity true, _ | _, Infinity true => Infinity true
  | Infinity false, z | z, Infinity false => z
  | Fin a, Fin b => if Qle_bool a b then Fin a else Fin b
  end.

(** [Math.pow(2, n)] for a counter [n]: exact up to [2^1023], [Infinity]
    from 1024 on. *)
Definition Math_pow2 (n : nat) : number :=
  if (n <? 1024)%nat then Fin (inject_Z (2 ^ Z.of_nat n)) else Infinity false.

(** The integer nearest to a rational, ties towards [+Infinity]. *)
Definition roundHalfUp (x : Q) : Z := Qfloor (x + (1 # 2)).

(** [Math.round(x)]: its result is exact, an integer nearest to a double is
    a double. *)
Definition Math_round (x : number) : number :=
  match x with
  | Fin q => Fin (inject_Z (roundHalfUp q))
  | _ => x
  end.

(** The doubles of Rocq's primitive floats, as numbers of the model: the
    model is compared with them below. *)
Definition ofFloat (f : float) : number :=
  match Prim2SF f with
  | S754_nan => NaN
  | S754_infinity s => Infinity s
  | S754_zero _ => Fin 0
  | S754_finite s m e =>
      Fin (Qred ((if s then -1 else 1) * inject_Z (Zpos m) * pow2 e))
  end.

(** ** Data *)

(** [CollectionSubscriptionUpdate]: [value] is [None] when the field is
    [undefined]. *)
Record CollectionSubscriptionUpdate (Key Value : Type) : Type := mkUpdate {
  key : Key;
  value : option Value
}.

(** The values that travel through [throw] and [catch]. *)
Inductive Thrown (Key : Type) : Type :=
| AbortError
    (* a value for which [isAbortError] holds *)
| OtherError (id : nat)
    (* any other value thrown by the source or by the hook *)
| UndefinedInInitialEmission (k : Key)
    (* Error(`Unexpected 'undefined' value at key '${key}' in initial emission`) *)
| UndefinedAlreadyUndefined (k : Key).
    (* Error(`Unexpected 'undefined' value at key '${key}': previous value was
       already 'undefined'`) *)

Arguments AbortError {Key}.
Arguments OtherError {Key} id.

Definition isAbortError {Key} (e : Thrown Key) : bool :=
  match e with AbortError => true | _ => false end.

(** The two errors the generator itself constructs. *)
Definition isProtocolViolation {Key} (e : Thrown Key) : bool :=
  match e with
  | UndefinedInInitialEmission _ | UndefinedAlreadyUndefined _ => true
  | _ => false
  end.

(** How an [AsyncIterable] returned by [subscribe] ends, after its batches. *)
Inductive Ending (Key : Type) : Type :=
| Completes
| Throws (e : Thrown Key)
| NeverSettles.

Arguments Completes {Key}.
Arguments NeverSettles {Key}.

(** One call of [subscribe(signal)]: the batches it delivers and its end.  A
    call that throws at once has no batch and ends with [Throws]. *)
Record Subscription (Key Value : Type) : Type := mkSubscription {
  batches : list (list (CollectionSubscriptionUpdate Key Value));
  ending : Ending Key
}.

(** What the generator does, in order. *)
Inductive Event (Key Value : Type) : Type :=
| Subscribed (outerCount : Z)
| Yielded (batch : list (CollectionSubscriptionUpdate Key Value))
| OnErrorCalled (e : Thrown Key) (attempt : option nat) (delayMs : option number)
| Delayed (delayMs : number).

Arguments Subscribed {Key Value} outerCount.
Arguments Yielded {Key Value} batch.
Arguments OnErrorCalled {Key Value} e attempt delayMs.
Arguments Delayed {Key Value} delayMs.

(** The [onError] option.  The first argument is [outerCount] at the call:
    it stands for whatever state the callback closes over.  The answer is
    [Some e] when the callback throws [e]. *)
Definition OnError (Key : Type) : Type :=
  Z -> Thrown Key -> option nat -> option number -> option (Thrown Key).

(** [RetryCollectionSubscriptionOptions] after destructuring with defaults;
    [maxAttempts = None] is [Infinity].  The [signal] is part of the
    environment below. *)
Record RetryCollectionSubscriptionOptions (Key Value Revision : Type) := mkOptions {
  baseMs : number;
  maxDelayMs : number;
  maxAttempts : option Q;
  onError : option (OnError Key);
  getRevision : Value -> Revision;
  equality : Revision -> Revision -> bool
}.

(** The collaborators, indexed by [outerCount]. *)
Record Environment (Key Value : Type) := mkEnvironment {
  subscribe : Z -> Subscription Key Value;
  random : Z -> Q;            (* the draw of [Math.random()], a double *)
  delayAborted : Z -> bool    (* does [signal] abort during [delay]? *)
}.

(** The variables of the generator that live across iterations. *)
Record LoopState (Key Revision : Type) := mkLoopState {
  state : JsMap.t (K := Key) (V := Revision);
  attempt : option nat;
  outerCount : Z
}.

(** How the [try] block of one iteration ends. *)
Inductive TryResult (Key : Type) : Type :=
| TryReturns
| TryThrows (e : Thrown Key)
| TryNeverSettles.

Arguments TryReturns {Key}.
Arguments TryNeverSettles {Key}.

(** How a run ends, by the statement that ends it. *)
Inductive Outcome (Key Revision : Type) : Type :=
| Returned                        (* [return] after the [for await] *)
| Cancelled (e : Thrown Key)      (* [rethrowAbortError(error)] *)
| Exhausted (e : Thrown Key)      (* [throw error] under [attempt >= maxAttempts] *)
| HookRaised (e : Thrown Key)     (* [onError] threw *)
| DelayCancelled                  (* [await delay(signal, delayMs)] rejected *)
| Suspended                       (* awaiting a source that never settles *)
| Running (ls : LoopState Key Revision).  (* still looping *)

Arguments Returned {Key Revision}.
Arguments Cancelled {Key Revision} e.
Arguments Exhausted {Key Revision} e.
Arguments HookRaised {Key Revision} e.
Arguments DelayCancelled {Key Revision}.
Arguments Suspended {Key Revision}.
Arguments Running {Key Revision} ls.

(** The rejection the consumer's [next()] observes, if any. *)
Definition rejection {Key Revision} (o : Outcome Key Revision) : option (Thrown Key) :=
  match o with
  | Cancelled e | Exhausted e | HookRaised e => Some e
  | DelayCancelled => Some AbortError
  | Returned | Suspended | Running _ => None
  end.

(** ** The generator *)

Section Generator.
Context {Key Value Revision : Type} `{KeyEq Key}.

Abbreviation Update := (CollectionSubscriptionUpdate Key Value).
Abbreviation State := (JsMap.t (K := Key) (V := Revision)).

Variable options : RetryCollectionSubscriptionOptions Key Value Revision.
Variable env : Environment Key Value.

(** [Math.min(maxDelayMs, Math.pow(2, attempt) * baseMs)] *)
Definition backoff (attempt : nat) : number :=
  Math_min (maxDelayMs options) (fmul (Math_pow2 attempt) (baseMs options)).

(** [Math.round((backoff * (1 + Math.random())) / 2)] *)
Definition delayMs (attempt : nat) (r : Q) : number :=
  Math_round (fhalf (fmul (backoff attempt) (fadd (Fin 1) (Fin r)))).

(** [attempt >= maxAttempts] *)
Definition budgetExhausted (attempt : nat) : bool :=
  match maxAttempts options with
  | None => false
  | Some m => Qle_bool m (inject_Z (Z.of_nat attempt))
  end.

(** The first [for ... of updates] of the diffing branch, with the three
    mutable variables it touches.  It stops at a [throw], leaving [state]
    as mutated so far. *)
Fixpoint diffLoop (updates : list Update) (state nextState : State)
    (diff : list Update) : State * (Thrown Key + State * list Update) :=
  match updates with
  | [] => (state, inr (nextState, diff))
  | u :: rest =>
      match value u with
      | None => (state, inl (UndefinedInInitialEmission (key u)))
      | Some v =>
          let revision := getRevision options v in
          let changed :=
            match JsMap.get (key u) state with
            | None => true
            | Some stored => negb (equality options stored revision)
            end in
          let diff := if changed then diff ++ [mkUpdate (key u) (Some v)] else diff in
          diffLoop rest (JsMap.remove (key u) state)
                   (JsMap.set (key u) revision nextState) diff
      end
  end.

(** The diffing branch up to its [yield]: the second loop pushes [{key}]
    for every key left in [state]. *)
Definition diffBranch (updates : list Update) (state : State)
    : State * (Thrown Key + list Update) :=
  match diffLoop updates state JsMap.empty [] with
  | (state', inl e) => (state', inl e)
  | (state', inr (nextState, diff)) =>
      (nextState,
       inr (diff ++ map (fun k => mkUpdate k None) (JsMap.keys state')))
  end.

(** The [for ... of updates] of the other branch. *)
Fixpoint applyLoop (updates : list Update) (state : State)
    : State * option (Thrown Key) :=
  match updates with
  | [] => (state, None)
  | u :: rest =>
      match value u with
      | None =>
          let (deleted, state') := JsMap.delete (key u) state in
          if negb deleted
          then (state', Some (UndefinedAlreadyUndefined (key u)))
          else applyLoop rest state'
      | Some v => applyLoop rest (JsMap.set (key u) (getRevision options v) state)
      end
  end.

Definition applyBranch (updates : list Update) (state : State)
    : State * (Thrown Key + list Update) :=
  match applyLoop updates state with
  | (state', Some e) => (state', inl e)
  | (state', None) => (state', inr updates)
  end.

(** The body of the [for await], after [innerCount += 1] and
    [attempt = undefined]: the new [state] and the batch to yield, or the
    error thrown. *)
Definition handleUpdates (outerCount innerCount : Z) (updates : list Update)
    (state : State) : State * (Thrown Key + list Update) :=
  if (innerCount =? 0)%Z && negb (outerCount =? 0)%Z
  then diffBranch updates state
  else applyBranch updates state.

(** The [for await] over the batches of one subscription.  [innerCount] and
    [attempt] are the values before the next batch arrives. *)
Fixpoint forAwait (outerCount innerCount : Z)
    (pending : list (list Update)) (ending : Ending Key)
    (state : State) (attempt : option nat)
    : list (Event Key Value) * State * option nat * TryResult Key :=
  match pending with
  | [] =>
      ([], state, attempt,
       match ending with
       | Completes => TryReturns
       | Throws e => TryThrows e
       | NeverSettles => TryNeverSettles
       end)
  | updates :: rest =>
      let innerCount := (innerCount + 1)%Z in
      let attempt : option nat := None in
      match handleUpdates outerCount innerCount updates state with
      | (state', inl e) => ([], state', attempt, TryThrows e)
      | (state', inr batch) =>
          let '(events, state'', attempt', result) :=
            forAwait outerCount innerCount rest ending state' attempt in
          (Yielded batch :: events, state'', attempt', result)
      end
  end.

(** A call [onError?.(error, attempt, delayMs)]: its event, when the option
    is set, and what it throws. *)
Definition callOnError (outerCount : Z) (e : Thrown Key)
    (attempt : option nat) (delay : option number)
    : list (Event Key Value) * option (Thrown Key) :=
  match onError options with
  | None => ([], None)
  | Some hook => ([OnErrorCalled e attempt delay], hook outerCount e attempt delay)
  end.

(** The [catch] block: it ends the run or leaves the next [attempt]. *)
Definition catchBlock (outerCount : Z) (error : Thrown Key)
    (attempt : option nat)
    : list (Event Key Value) * (Outcome Key Revision + option nat) :=
  if isAbortError error then ([], inl (Cancelled error))
  else
    match attempt with
    | None =>
        match callOnError outerCount error None None with
        | (events, Some raised) => (events, inl (HookRaised raised))
        | (events, None) => (events, inr (Some 0%nat))
        end
    | Some n =>
        if budgetExhausted n then ([], inl (Exhausted error))
        else
          let delay := delayMs n (random env outerCount) in
          match callOnError outerCount error (Some n) (Some delay) with
          | (events, Some raised) => (events, inl (HookRaised raised))
          | (events, None) =>
              if delayAborted env outerCount
              then (events ++ [Delayed delay], inl DelayCancelled)
              else (events ++ [Delayed delay], inr (Some (S n)))
          end
    end.

(** One iteration of [while (true)]. *)
Definition iteration (ls : LoopState Key Revision)
    : list (Event Key Value) * (Outcome Key Revision + LoopState Key Revision) :=
  let outerCount := (outerCount ls + 1)%Z in
  let subscription := subscribe env outerCount in
  let '(events, state', attempt', result) :=
    forAwait outerCount (-1) (batches subscription) (ending subscription)
             (state ls) (attempt ls) in
  match result with
  | TryReturns => (Subscribed outerCount :: events, inl Returned)
  | TryNeverSettles => (Subscribed outerCount :: events, inl Suspended)
  | TryThrows error =>
      match catchBlock outerCount error attempt' with
      | (events', inl outcome) =>
          (Subscribed outerCount :: events ++ events', inl outcome)
      | (events', inr attempt'') =>
          (Subscribed outerCount :: events ++ events',
           inr (mkLoopState state' attempt'' outerCount))
      end
  end.

(** The variables before the loop. *)
Definition initial : LoopState Key Revision :=
  mkLoopState JsMap.empty (Some 0%nat) (-1).

(** At most [fuel] iterations of the loop, from [ls]. *)
Fixpoint run (fuel : nat) (ls : LoopState Key Revision)
    : list (Event Key Value) * Outcome Key Revision :=
  match fuel with
  | O => ([], Running ls)
  | S fuel' =>
      match iteration ls with
      | (events, inl outcome) => (events, outcome)
      | (events, inr ls') =>
          let (events', outcome) := run fuel' ls' in
          (events ++ events', outcome)
      end
  end.

Definition retryCollectionSubscription (fuel : nat)
    : list (Event Key Value) * Outcome Key Revision :=
  run fuel initial.
End Generator.

(** ** The properties in the words of the specification *)

(** A whole, non-negative number of milliseconds that
    [Number.isSafeInteger] accepts. *)
Definition safeMs (q : Q) : Prop :=
  exists z : Z, (0 <= z < 2 ^ 53)%Z /\ q == inject_Z z.

Section InWords.
Context {Key Value Revision : Type} `{KeyEq Key}.

Variable options : RetryCollectionSubscriptionOptions Key Value Revision.

(** A snapshot all of whose items carry a value is a list of key/value
    pairs. *)
Definition present (item : Key * Value) : CollectionSubscriptionUpdate Key Value :=
  mkUpdate (fst item) (Some (snd item)).

Definition absent (k : Key) : CollectionSubscriptionUpdate Key Value :=
  mkUpdate k None.

Definition occurs (k : Key) (ks : list Key) : bool :=
  if in_dec key_eq_dec k ks then true else false.

(** "whose key is absent from old State or whose revision differs from the
    stored one under the injected equality" *)
Definition differs (old : JsMap.t (K := Key) (V := Revision))
    (item : Key * Value) : bool :=
  match JsMap.get (fst item) old with
  | None => true
  | Some stored => negb (equality options stored (getRevision options (snd item)))
  end.

(** "each key of old State not occurring in the snapshot, in old State's
    iteration order" *)
Definition vanished (old : JsMap.t (K := Key) (V := Revision))
    (items : list (Key * Value)) : list Key :=
  filter (fun k => negb (occurs k (map fst items))) (JsMap.keys old).

(** The batch in the words of claim C3: the items that differ from old
    State, then the vanished keys. *)
Definition statedDiff (old : JsMap.t (K := Key) (V := Revision))
    (items : list (Key * Value)) : list (CollectionSubscriptionUpdate Key Value) :=
  map present (filter (differs old) items) ++ map absent (vanished old items).

(** The items, in snapshot order, that differ from old State or whose key
    already occurred among the [earlier] keys of the snapshot. *)
Fixpoint changedItems (old : JsMap.t (K := Key) (V := Revision))
    (earlier : list Key) (items : list (Key * Value)) : list (Key * Value) :=
  match items with
  | [] => []
  | item :: rest =>
      if differs old item || occurs (fst item) earlier
      then item :: changedItems old (earlier ++ [fst item]) rest
      else changedItems old (earlier ++ [fst item]) rest
  end.

(** The value of the last item with key [k]. *)
Fixpoint lastValue (k : Key) (items : list (Key * Value)) : option Value :=
  match items with
  | [] => None
  | item :: rest =>
      match lastValue k rest with
      | Some v => Some v
      | None => if key_eq_dec k (fst item) then Some (snd item) else None
      end
  end.

(** The keys of a list without repetition, in order of first occurrence. *)
Fixpoint firstOccurrences (earlier ks : list Key) : list Key :=
  match ks with
  | [] => []
  | k :: rest =>
      if occurs k earlier then firstOccurrences earlier rest
      else k :: firstOccurrences (earlier ++ [k]) rest
  end.

(** The keys the consumer holds: an update with a value adds its key, one
    without removes it. *)
Definition consumerApply (held : list Key)
    (u : CollectionSubscriptionUpdate Key Value) : list Key :=
  match value u with
  | Some _ => if occurs (key u) held then held else held ++ [key u]
  | None => filter (fun k => negb (occurs k [key u])) held
  end.

Definition consumerReceive (held : list Key) (e : Event Key Value) : list Key :=
  match e with
  | Yielded batch => fold_left consumerApply batch held
  | _ => held
  end.

(** The keys for which the consumer has received an upsert not yet followed
    by a delete, after the given events. *)
Definition consumerKeys (events : list (Event Key Value)) : list Key :=
  fold_left consumerReceive events [].

(** Same keys, whatever the order. *)
Definition sameKeys (ks ks' : list Key) : Prop :=
  forall k, In k ks <-> In k ks'.

(** The events of a given kind in a trace. *)
Definition subscriptions (events : list (Event Key Value)) : list Z :=
  flat_map (fun e => match e with Subscribed i => [i] | _ => [] end) events.

Definition hookCalls (events : list (Event Key Value))
    : list (Thrown Key * option nat * option number) :=
  flat_map (fun e => match e with OnErrorCalled x a d => [(x, a, d)] | _ => [] end)
           events.

Definition delays (events : list (Event Key Value)) : list number :=
  flat_map (fun e => match e with Delayed d => [d] | _ => [] end) events.

(** The events of the attempt with number [i] when it fails with [e] before
    any batch and is retried after the backoff delay. *)
Definition retriedAttempt (env : Environment Key Value) (e : Thrown Key)
    (i : nat) : list (Event Key Value) :=
  let delay := delayMs options i (random env (Z.of_nat i)) in
  [Subscribed (Z.of_nat i); OnErrorCalled e (Some i) (Some delay); Delayed delay].

(** The last update of a batch for key [k]: [Some (Some v)] when it sets
    [v], [Some None] when it removes the key, [None] when the batch does not
    mention [k]. *)
Fixpoint lastUpdate (k : Key)
    (updates : list (CollectionSubscriptionUpdate Key Value))
    : option (option Value) :=
  match updates with
  | [] => None
  | u :: rest =>
      match lastUpdate k rest with
      | Some x => Some x
      | None => if key_eq_dec k (key u) then Some (value u) else None
      end
  end.

(** The events of a subscription that fails with [e] before any batch while
    [attempt = a] and [outerCount = i], and is retried. *)
Definition retriedAt (env : Environment Key Value) (e : Thrown Key)
    (a : nat) (i : Z) : list (Event Key Value) :=
  let delay := delayMs options a (random env i) in
  match onError options with
  | Some _ => [Subscribed i; OnErrorCalled e (Some a) (Some delay); Delayed delay]
  | None => [Subscribed i; Delayed delay]
  end.

(** What a call of the hook may look like: never with a cancellation error,
    and either with no attempt and no delay, or with an attempt the budget
    allows together with a delay. *)
Definition hookCallAllowed (call : Thrown Key * option nat * option number) : Prop :=
  isAbortError (fst (fst call)) = false
  /\ match snd (fst call), snd call with
     | None, None => True
     | Some n, Some _ => budgetExhausted options n = false
     | _, _ => False
     end.

(** What the first loop of the diffing branch leaves in [state] and in
    [nextState] once every item has been visited. *)
Definition removeItems (items : list (Key * Value))
    (st : JsMap.t (K := Key) (V := Revision)) : JsMap.t (K := Key) (V := Revision) :=
  fold_left (fun m item => JsMap.remove (fst item) m) items st.

Definition setItems (items : list (Key * Value))
    (ns : JsMap.t (K := Key) (V := Revision)) : JsMap.t (K := Key) (V := Revision) :=
  fold_left (fun m item => JsMap.set (fst item) (getRevision options (snd item)) m)
            items ns.
End InWords.

(** ** Scenarios

    The inputs of the repository's tests and the other concrete runs used
    below: string keys, string values, the default [getRevision] (identity)
    and [equality] (deep equality, here equality of strings). *)

Module Scenarios.

Local Open Scope string_scope.

Definition Update : Type := CollectionSubscriptionUpdate string string.
Definition Options : Type := RetryCollectionSubscriptionOptions string string string.

Definition upsert (k v : string) : Update := mkUpdate k (Some v).
Definition removal (k : string) : Update := mkUpdate (Value := string) k None.

(** No option given: [retryCollectionSubscription(subscribe)]. *)
Definition defaults : Options :=
  mkOptions (Fin 1000) (Fin 15000) None None (fun v => v) String.eqb.

(** A hook that records its calls and returns: [jest.fn()]. *)
Definition quietHook : OnError string := fun _ _ _ _ => None.

Definition withHook (hook : OnError string) : Options :=
  mkOptions (Fin 1000) (Fin 15000) None (Some hook) (fun v => v) String.eqb.

Definition withMaxAttempts (m : Q) (hook : OnError string) : Options :=
  mkOptions (Fin 1000) (Fin 15000) (Some m) (Some hook) (fun v => v) String.eqb.

(** A base delay of half a millisecond. *)
Definition halfMs : Options :=
  mkOptions (Fin (1 # 2)) (Fin 15000) None None (fun v => v) String.eqb.

(** [mockRandom(0.5)], a signal that never aborts, and the given sources;
    a source the test never feeds is a sink that never settles. *)
Definition sinks (subs : list (Subscription string string)) : Environment string string :=
  mkEnvironment
    (fun i => nth (Z.to_nat i) subs (mkSubscription [] NeverSettles))
    (fun _ => 1 # 2)
    (fun _ => false).

(** test('basic resubscription') *)
Definition basicResubscription : Environment string string :=
  sinks [ mkSubscription
            [ [upsert "1" "1-1"]; [upsert "2" "2-1"; removal "1"] ]
            (Throws (OtherError 0));
          mkSubscription
            [ [upsert "2" "2-1"; upsert "1" "1-2"] ]
            NeverSettles ].

(** test('backoff') *)
Definition backoffTest : Environment string string :=
  sinks [ mkSubscription [] (Throws (OtherError 1));
          mkSubscription [] (Throws (OtherError 2));
          mkSubscription [ [upsert "1" "1"] ] (Throws (OtherError 3));
          mkSubscription [] (Throws (OtherError 4));
          mkSubscription [ [upsert "1" "1"] ] NeverSettles ].

(** test('undefined value in initial emission'): one sink for every call of
    [subscribe]; what was written to it is consumed by the first call. *)
Definition undefinedInInitialEmission : Environment string string :=
  sinks [ mkSubscription [ [upsert "1" "1"; removal "2"] ] NeverSettles ].

(** test('undefined value in initial emission after retry') *)
Definition undefinedAfterRetry : Environment string string :=
  sinks [ mkSubscription [ [] ] (Throws (OtherError 0));
          mkSubscription [ [removal "1"] ] NeverSettles ].

(** test('undefined value in for key not present in the state') *)
Definition undefinedNotInState : Environment string string :=
  sinks [ mkSubscription [ []; [removal "1"] ] NeverSettles ].


(** The test's first batch again; the second subscription then sends key
    "1" as its snapshot and fails. *)
Definition droppedBatch : Environment string string :=
  sinks [ mkSubscription [ [upsert "1" "1"; removal "2"] ] NeverSettles;
          mkSubscription [ [upsert "1" "1"] ] (Throws (OtherError 0)) ].

(** A first batch that sets a key and removes it again. *)
Definition setThenRemoved : Environment string string :=
  sinks [ mkSubscription [ [upsert "1" "1"; removal "1"] ] NeverSettles ].

(** A hook that rethrows what it is given. *)
Definition rethrowingHook : OnError string := fun _ e _ _ => Some e.

(** A source that fails at once, every time. *)
Definition alwaysFailing : Environment string string :=
  mkEnvironment
    (fun i => mkSubscription [] (Throws (OtherError (Z.to_nat i))))
    (fun _ => 1 # 2)
    (fun _ => false).

(** A source that delivers one batch and fails, every time. *)
Definition failingAfterBatch : Environment string string :=
  mkEnvironment
    (fun i => mkSubscription [ [upsert "1" "1"] ] (Throws (OtherError (Z.to_nat i))))
    (fun _ => 1 # 2)
    (fun _ => false).

(** State [{a: 1, b: 2}] and snapshots of it. *)
Definition stateAB : JsMap.t (K := string) (V := string) := [("a", "1"); ("b", "2")].
Definition stateA : JsMap.t (K := string) (V := string) := [("a", "1")].
Definition snapshotAB : list (string * string) := [("a", "1"); ("b", "2")].
Definition snapshotA : list (string * string) := [("a", "1")].
Definition snapshotAA : list (string * string) := [("a", "1"); ("a", "1")].


(** A first source that is cancelled after one batch. *)
Definition cancelledAfterBatch : Environment string string :=
  sinks [ mkSubscription [ [upsert "1" "1"] ] (Throws AbortError) ].

(** A first source that delivers two batches and completes. *)
Definition completing : Environment string string :=
  sinks [ mkSubscription [ [upsert "1" "1"]; [removal "1"] ] Completes ].

(** A source that fails at once while the signal aborts every delay. *)
Definition abortedWhileWaiting : Environment string string :=
  mkEnvironment
    (fun i => mkSubscription [] (Throws (OtherError (Z.to_nat i))))
    (fun _ => 1 # 2)
    (fun _ => true).

(** A first source that delivers a batch and fails; every later one fails
    at once. *)
Definition failingAfterFirstBatch : Environment string string :=
  mkEnvironment
    (fun i =>
       if (i =? 0)%Z
       then mkSubscription [ [upsert "1" "1"] ] (Throws (OtherError 0))
       else mkSubscription [] (Throws (OtherError (Z.to_nat i))))
    (fun _ => 1 # 2)
    (fun _ => false).

(** The example of the documentation of [maxDelayMs]: [baseMs] 1000 and
    [maxDelayMs] 3000. *)
Definition cappedAt3000 : Options :=
  mkOptions (Fin 1000) (Fin 3000) None None (fun v => v) String.eqb.

(** A live batch that sets "a" twice and removes "b". *)
Definition liveBatch : list Update :=
  [upsert "a" "2"; removal "b"; upsert "a" "3"].

(** A snapshot that changes "a", drops "b" and adds "c". *)
Definition snapshotAC : list (string * string) := [("a", "9"); ("c", "3")].

(** [baseMs: 0]: every backoff is zero, as long as it is a number. *)
Definition zeroBase : Options :=
  mkOptions (Fin 0) (Fin 15000) None None (fun v => v) String.eqb.

(** [equality: () => true]: every revision passes for every other. *)
Definition anyRevision : Options :=
  mkOptions (Fin 1000) (Fin 15000) None None (fun v => v) (fun _ _ => true).

(** A snapshot with the key of State [{a: 1}] and another revision. *)
Definition snapshotA2 : list (string * string) := [("a", "2")].

End Scenarios.

(** * Proofs *)

(** ** Facts about [Map] *)

Section MapFacts.
Context {K V : Type} `{KeyEq K}.

Implicit Types m : JsMap.t (K := K) (V := V).

Lemma occurs_In (k : K) (ks : list K) : occurs k ks = true <-> In k ks.
Proof.
  unfold occurs. destruct (in_dec key_eq_dec k ks); split; intros; auto; discriminate.
Qed.

Lemma occurs_not_In (k : K) (ks : list K) : occurs k ks = false <-> ~ In k ks.
Proof.
  unfold occurs. destruct (in_dec key_eq_dec k ks); split; intros; auto;
    [discriminate | contradiction].
Qed.

Lemma occurs_app (k : K) (ks ks' : list K) :
  occurs k (ks ++ ks') = occurs k ks || occurs k ks'.
Proof.
  destruct (occurs k ks) eqn:E1, (occurs k ks') eqn:E2; simpl;
    rewrite ?occurs_In, ?occurs_not_In in *; rewrite in_app_iff; tauto.
Qed.

Lemma occurs_single (k k' : K) :
  occurs k [k'] = if key_eq_dec k k' then true else false.
Proof.
  destruct (key_eq_dec k k') as [->|n].
  - apply occurs_In. now left.
  - apply occurs_not_In. intros [e|[]]. now apply n.
Qed.

Lemma get_remove k k' m :
  JsMap.get k (JsMap.remove k' m) = if key_eq_dec k k' then None else JsMap.get k m.
Proof.
  induction m as [|[k0 v0] m IH]; simpl.
  - now destruct (key_eq_dec k k').
  - destruct (key_eq_dec k' k0) as [->|n]; simpl.
    + rewrite IH. destruct (key_eq_dec k k0); reflexivity.
    + rewrite IH. destruct (key_eq_dec k k0) as [->|n0].
      * destruct (key_eq_dec k0 k'); congruence.
      * reflexivity.
Qed.

Lemma keys_remove k m :
  JsMap.keys (JsMap.remove k m) = filter (fun k' => negb (occurs k' [k])) (JsMap.keys m).
Proof.
  induction m as [|[k0 v0] m IH]; simpl; [reflexivity|].
  rewrite occurs_single.
  destruct (key_eq_dec k k0) as [->|n].
  - destruct (key_eq_dec k0 k0); [|congruence]. simpl. apply IH.
  - destruct (key_eq_dec k0 k); [congruence|]. simpl. f_equal. apply IH.
Qed.

Lemma get_set k k' v m :
  JsMap.get k (JsMap.set k' v m) = if key_eq_dec k k' then Some v else JsMap.get k m.
Proof.
  induction m as [|[k0 v0] m IH]; simpl.
  - reflexivity.
  - destruct (key_eq_dec k' k0) as [->|n]; simpl.
    + destruct (key_eq_dec k k0); reflexivity.
    + rewrite IH. destruct (key_eq_dec k k0) as [->|n0].
      * destruct (key_eq_dec k0 k'); congruence.
      * reflexivity.
Qed.

Lemma has_In k m : JsMap.has k m = true <-> In k (JsMap.keys m).
Proof.
  unfold JsMap.has. induction m as [|[k0 v0] m IH]; simpl.
  - split; [discriminate | tauto].
  - destruct (key_eq_dec k k0) as [->|n].
    + split; auto.
    + rewrite IH. split; [tauto | intros [e|i]; congruence].
Qed.

Lemma get_None_keys k m : JsMap.get k m = None <-> ~ In k (JsMap.keys m).
Proof.
  rewrite <- has_In. unfold JsMap.has.
  destruct (JsMap.get k m); split; intros; congruence.
Qed.

Lemma keys_set k v m :
  JsMap.keys (JsMap.set k v m) =
  if JsMap.has k m then JsMap.keys m else JsMap.keys m ++ [k].
Proof.
  unfold JsMap.has. induction m as [|[k0 v0] m IH]; simpl.
  - reflexivity.
  - destruct (key_eq_dec k k0) as [->|n]; simpl.
    + reflexivity.
    + rewrite IH. destruct (JsMap.get k m); reflexivity.
Qed.

Lemma wf_set k v m : JsMap.wf m -> JsMap.wf (JsMap.set k v m).
Proof.
  unfold JsMap.wf. intros W. rewrite keys_set.
  destruct (JsMap.has k m) eqn:E; [assumption|].
  apply NoDup_app; [assumption | repeat constructor; simpl; tauto |].
  intros x Hx [<-|[]]. apply has_In in Hx. congruence.
Qed.

Lemma wf_remove k m : JsMap.wf m -> JsMap.wf (JsMap.remove k m).
Proof.
  unfold JsMap.wf. intros W. rewrite keys_remove. now apply NoDup_filter.
Qed.
End MapFacts.

(** ** The diffing branch *)

Section DiffFacts.
Context {Key Value Revision : Type} `{KeyEq Key}.

Variable options : RetryCollectionSubscriptionOptions Key Value Revision.

Implicit Types old st ns : JsMap.t (K := Key) (V := Revision).
Implicit Types items : list (Key * Value).

Lemma all_present_items (updates : list (CollectionSubscriptionUpdate Key Value)) :
  Forall (fun u => value u <> None) updates ->
  exists items, updates = map present items.
Proof.
  induction 1 as [|[k [v|]] updates Hv _ [items ->]].
  - now exists [].
  - now exists ((k, v) :: items).
  - now contradiction Hv.
Qed.

Lemma diffLoop_present old items : forall earlier st ns d,
  (forall k, JsMap.get k st = if occurs k earlier then None else JsMap.get k old) ->
  diffLoop options (map present items) st ns d =
  (removeItems items st,
   inr (setItems options items ns, d ++ map present (changedItems options old earlier items))).
Proof.
  induction items as [|[k v] items IH]; intros earlier st ns d Inv; simpl.
  - now rewrite app_nil_r.
  - unfold differs; simpl. rewrite (Inv k).
    rewrite (IH (earlier ++ [k])).
    + destruct (occurs k earlier) eqn:Eo.
      * rewrite orb_true_r. simpl. now rewrite <- app_assoc.
      * rewrite orb_false_r. destruct (JsMap.get k old) as [stored|]; simpl.
        -- destruct (equality options stored (getRevision options v)); simpl;
             [reflexivity | now rewrite <- app_assoc].
        -- now rewrite <- app_assoc.
    + intros k'. rewrite get_remove, occurs_app, occurs_single, Inv.
      destruct (key_eq_dec k' k); [now rewrite orb_true_r | now rewrite orb_false_r].
Qed.

Lemma keys_removeItems items : forall st,
  JsMap.keys (removeItems items st) =
  filter (fun k => negb (occurs k (map fst items))) (JsMap.keys st).
Proof.
  induction items as [|[k v] items IH]; intros st; simpl.
  - induction (JsMap.keys st) as [|k ks IHk]; simpl; [reflexivity | now f_equal].
  - unfold removeItems in *. simpl. rewrite IH, keys_remove.
    induction (JsMap.keys st) as [|k0 ks IHk]; simpl; [reflexivity|].
    change (k :: map fst items) with ([k] ++ map fst items).
    rewrite occurs_app.
    destruct (occurs k0 [k]); simpl; [assumption|].
    destruct (occurs k0 (map fst items)); simpl; [assumption | now f_equal].
Qed.

Lemma get_setItems k items : forall ns,
  JsMap.get k (setItems options items ns) =
  match lastValue k items with
  | Some v => Some (getRevision options v)
  | None => JsMap.get k ns
  end.
Proof.
  induction items as [|[k0 v0] items IH]; intros ns; simpl; [reflexivity|].
  unfold setItems in *. simpl. rewrite IH, get_set.
  destruct (lastValue k items); [reflexivity|].
  now destruct (key_eq_dec k k0).
Qed.

Lemma keys_setItems items : forall ns,
  JsMap.keys (setItems options items ns) =
  JsMap.keys ns ++ firstOccurrences (JsMap.keys ns) (map fst items).
Proof.
  induction items as [|[k v] items IH]; intros ns; simpl.
  - now rewrite app_nil_r.
  - unfold setItems in *. simpl. rewrite IH, keys_set.
    destruct (JsMap.has k ns) eqn:Eh.
    + apply has_In, occurs_In in Eh. now rewrite Eh.
    + assert (occurs k (JsMap.keys ns) = false) as ->.
      { apply occurs_not_In. rewrite <- has_In. congruence. }
      now rewrite <- app_assoc.
Qed.

Lemma wf_setItems items : forall ns, JsMap.wf ns -> JsMap.wf (setItems options items ns).
Proof.
  induction items as [|[k v] items IH]; intros ns W; simpl; [assumption|].
  apply IH. now apply wf_set.
Qed.

(** Without a repeated key the history plays no part. *)
Lemma changedItems_NoDup old items : forall earlier,
  NoDup (map fst items) ->
  (forall k, In k earlier -> ~ In k (map fst items)) ->
  changedItems options old earlier items = filter (differs options old) items.
Proof.
  induction items as [|[k v] items IH]; intros earlier ND Dis; simpl; [reflexivity|].
  inversion ND as [|? ? Hk ND']; subst.
  assert (occurs k earlier = false) as ->.
  { apply occurs_not_In. intros Hi. apply (Dis k Hi). now left. }
  rewrite orb_false_r, IH; [reflexivity | assumption |].
  intros k' Hk' Hi. apply in_app_iff in Hk' as [Hk'|[<-|[]]].
  - apply (Dis k' Hk'). now right.
  - contradiction.
Qed.

Lemma diffBranch_present old items :
  diffBranch options (map present items) old =
  (setItems options items JsMap.empty,
   inr (map present (changedItems options old [] items)
        ++ map absent (vanished old items))).
Proof.
  unfold diffBranch.
  rewrite (diffLoop_present old items []); [|reflexivity].
  simpl. unfold vanished. now rewrite keys_removeItems.
Qed.
End DiffFacts.

Section MapExt.
Context {K V : Type} `{KeyEq K}.

(** Two maps with the same keys in the same order and the same lookups are
    the same list of entries. *)
Lemma entries_ext (m : JsMap.t (K := K) (V := V)) : forall m' : JsMap.t (K := K) (V := V),
  JsMap.wf m ->
  JsMap.keys m = JsMap.keys m' ->
  (forall k, JsMap.get k m = JsMap.get k m') ->
  m = m'.
Proof.
  unfold JsMap.wf.
  induction m as [|[k v] m IH]; intros [|[k' v'] m'] W Hk Hg; simpl in *;
    try discriminate; [reflexivity|].
  injection Hk as <- Hk. inversion W as [|? ? Hn W']; subst.
  pose proof (Hg k) as Hgk. destruct (key_eq_dec k k); [|congruence].
  injection Hgk as <-. f_equal. apply IH; [assumption | assumption |].
  intros k0. specialize (Hg k0). destruct (key_eq_dec k0 k) as [->|n]; [|assumption].
  pose proof Hn as Hn'. rewrite Hk in Hn'.
  apply get_None_keys in Hn, Hn'. congruence.
Qed.
End MapExt.

Section DiffTheorems.
Context {Key Value Revision : Type} `{KeyEq Key}.

Variable options : RetryCollectionSubscriptionOptions Key Value Revision.

Implicit Types old : JsMap.t (K := Key) (V := Revision).
Implicit Types items : list (Key * Value).

Lemma lastValue_In k items :
  In k (map fst items) <-> exists v, lastValue k items = Some v.
Proof.
  induction items as [|[k0 v0] items IH]; simpl.
  - split; [tauto | intros [v Hv]; discriminate].
  - destruct (lastValue k items) as [v|] eqn:E.
    + split; [eauto | intros _; right; apply IH; eauto].
    + destruct (key_eq_dec k k0) as [->|n].
      * split; [eauto | auto].
      * split; [intros [e|i]; [congruence | apply IH in i as [v Hv]; discriminate]
               | intros [v Hv]; discriminate].
Qed.

Lemma lastValue_NoDup k v items :
  NoDup (map fst items) -> In (k, v) items -> lastValue k items = Some v.
Proof.
  induction items as [|[k0 v0] items IH]; simpl; intros ND Hi; [contradiction|].
  inversion ND as [|? ? Hn ND']; subst.
  destruct Hi as [e|Hi].
  - injection e as -> ->.
    destruct (lastValue k items) eqn:E.
    + exfalso. apply Hn, lastValue_In. eauto.
    + now destruct (key_eq_dec k k).
  - now rewrite (IH ND' Hi).
Qed.

Lemma firstOccurrences_NoDup (ks : list Key) : forall earlier,
  NoDup ks -> (forall k, In k earlier -> ~ In k ks) ->
  firstOccurrences earlier ks = ks.
Proof.
  induction ks as [|k ks IH]; intros earlier ND Dis; simpl; [reflexivity|].
  inversion ND as [|? ? Hn ND']; subst.
  assert (occurs k earlier = false) as ->.
  { apply occurs_not_In. intros Hi. apply (Dis k Hi). now left. }
  f_equal. apply IH; [assumption|].
  intros k' Hk' Hi. apply in_app_iff in Hk' as [Hk'|[<-|[]]].
  - apply (Dis k' Hk'). now right.
  - contradiction.
Qed.
End DiffTheorems.

(** ** The diff: claims C3 and C7 *)

Section DiffClaims.
Context {Key Value Revision : Type} `{KeyEq Key}.

Variable options : RetryCollectionSubscriptionOptions Key Value Revision.

Implicit Types old : JsMap.t (K := Key) (V := Revision).
Implicit Types items : list (Key * Value).

(** C3, amended.  For every old State and every snapshot all of whose items
    carry a value, the diffing branch emits, for each snapshot item in
    snapshot order whose key is absent from old State, or has already
    occurred earlier in the snapshot, or whose revision differs from the
    stored one under the injected equality, an upsert with that key and
    value; then one absent-value event for each key of old State that does
    not occur in the snapshot, in old State's iteration order.  The new State
    holds exactly the snapshot keys, in order of first occurrence, each with
    the revision of its last item.  When no key is repeated in the snapshot
    this is the batch of the specification. *)
Theorem diff_emits_changes_then_removals old items :
  exists newState,
    diffBranch options (map present items) old =
      (newState,
       inr (map present (changedItems options old [] items)
            ++ map absent (vanished old items)))
    /\ (forall k,
          JsMap.get k newState =
          option_map (getRevision options) (lastValue k items))
    /\ JsMap.keys newState = firstOccurrences [] (map fst items)
    /\ (NoDup (map fst items) ->
          map present (changedItems options old [] items)
          ++ map absent (vanished old items)
          = statedDiff options old items).
Proof.
  exists (setItems options items JsMap.empty).
  split; [apply diffBranch_present|].
  split; [|split].
  - intros k. rewrite get_setItems. now destruct (lastValue k items).
  - now rewrite keys_setItems.
  - intros ND. unfold statedDiff.
    rewrite changedItems_NoDup; [reflexivity | assumption | intros k []].
Qed.

(** C7, amended.  When the reconciliation snapshot lists the keys of State,
    each once, with revisions equal to the stored ones under the injected
    equality, the diffing branch yields the empty batch, and the new State
    has the keys of the old one with equal revisions: the same lookups when
    the equality only relates identical revisions, and the very same map when
    the snapshot also follows State's iteration order. *)
Theorem identical_snapshot_yields_empty_batch old items (outerCount : Z) :
  outerCount <> 0%Z ->
  NoDup (map fst items) ->
  (forall k, In k (JsMap.keys old) -> In k (map fst items)) ->
  (forall item, In item items ->
     exists stored,
       JsMap.get (fst item) old = Some stored
       /\ equality options stored (getRevision options (snd item)) = true) ->
  exists newState,
    handleUpdates options outerCount 0 (map present items) old = (newState, inr [])
    /\ (forall rest ending attempt,
          exists events state' attempt' result,
            forAwait options outerCount (-1) (map present items :: rest)
                     ending old attempt
            = (Yielded [] :: events, state', attempt', result))
    /\ sameKeys (JsMap.keys newState) (JsMap.keys old)
    /\ (forall k stored,
          JsMap.get k old = Some stored ->
          exists revision,
            JsMap.get k newState = Some revision
            /\ equality options stored revision = true)
    /\ ((forall a b, equality options a b = true -> a = b) ->
        forall k, JsMap.get k newState = JsMap.get k old)
    /\ ((forall a b, equality options a b = true -> a = b) ->
        map fst items = JsMap.keys old ->
        newState = old).
Proof.
  intros Houter ND Hkeys Hsame.
  assert (Hchanged : changedItems options old [] items = []).
  { rewrite changedItems_NoDup; [|assumption | intros k []].
    clear ND Hkeys. induction items as [|item items' IH]; simpl; [reflexivity|].
    destruct (Hsame item (or_introl eq_refl)) as (stored & Hg & He).
    unfold differs at 1. rewrite Hg, He. simpl.
    apply IH. intros i Hi. apply Hsame. now right. }
  assert (Hvanished : vanished old items = []).
  { unfold vanished. induction (JsMap.keys old) as [|k ks IH]; simpl; [reflexivity|].
    assert (occurs k (map fst items) = true) as ->.
    { apply occurs_In, Hkeys. now left. }
    simpl. apply IH. intros k' Hk'. apply Hkeys. now right. }
  assert (Hhandle : handleUpdates options outerCount 0 (map present items) old
                    = (setItems options items JsMap.empty, inr [])).
  { unfold handleUpdates. destruct (Z.eqb_spec outerCount 0); [contradiction|].
    simpl. rewrite diffBranch_present, Hchanged, Hvanished. reflexivity. }
  assert (Hlookup : forall k stored,
             JsMap.get k old = Some stored ->
             exists v, lastValue k items = Some v
                       /\ equality options stored (getRevision options v) = true).
  { intros k stored Hg.
    assert (Hin : In k (map fst items)).
    { apply Hkeys. apply has_In. unfold JsMap.has. now rewrite Hg. }
    apply in_map_iff in Hin as ([k' v] & <- & Hin).
    exists v. split; [now apply lastValue_NoDup|].
    destruct (Hsame _ Hin) as (stored' & Hg' & He). simpl in *. congruence. }
  assert (Hget : (forall a b, equality options a b = true -> a = b) ->
                 forall k, JsMap.get k (setItems options items JsMap.empty)
                           = JsMap.get k old).
  { intros Leib k. rewrite get_setItems. simpl.
    destruct (JsMap.get k old) as [stored|] eqn:Hg.
    - destruct (Hlookup k stored Hg) as (v & -> & He). f_equal. symmetry. now apply Leib.
    - destruct (lastValue k items) as [v|] eqn:El; [|reflexivity].
      exfalso. assert (Hin : In k (map fst items)) by (apply lastValue_In; eauto).
      apply in_map_iff in Hin as (item & <- & Hin).
      destruct (Hsame item Hin) as (stored & Hg' & _). congruence. }
  exists (setItems options items JsMap.empty).
  split; [exact Hhandle|].
  split; [|split; [|split; [|split]]].
  - intros rest ending attempt.
    cbn [forAwait]. change (-1 + 1)%Z with 0%Z. rewrite Hhandle.
    destruct (forAwait options outerCount 0 rest ending
                (setItems options items JsMap.empty) None)
      as [[[events state'] attempt'] result].
    now exists events, state', attempt', result.
  - intros k. rewrite keys_setItems. simpl.
    rewrite firstOccurrences_NoDup; [|assumption | intros k' []].
    split; [|apply Hkeys].
    intros Hin. apply in_map_iff in Hin as (item & <- & Hin).
    destruct (Hsame item Hin) as (stored & Hg & _).
    apply has_In. unfold JsMap.has. now rewrite Hg.
  - intros k stored Hg. destruct (Hlookup k stored Hg) as (v & Hl & He).
    exists (getRevision options v). split; [|assumption].
    rewrite get_setItems. now rewrite Hl.
  - exact Hget.
  - intros Leib Horder. apply entries_ext.
    + apply wf_setItems. constructor.
    + rewrite keys_setItems. simpl.
      rewrite firstOccurrences_NoDup; [assumption | assumption | intros k' []].
    + now apply Hget.
Qed.
End DiffClaims.

(** ** Doubles: powers of two *)

Lemma pow2_pos (e : Z) : 0 < pow2 e.
Proof. apply Qpower_0_lt. reflexivity. Qed.

Lemma pow2_add (a b : Z) : pow2 (a + b) == pow2 a * pow2 b.
Proof. apply Qpower_plus. discriminate. Qed.

Lemma pow2_le (a b : Z) : (a <= b)%Z -> pow2 a <= pow2 b.
Proof. intros L. apply Qpower_le_compat_l; [exact L | discriminate]. Qed.

Lemma pow2_lt (a b : Z) : (a < b)%Z -> pow2 a < pow2 b.
Proof. intros L. apply Qpower_lt_compat_l; [exact L | reflexivity]. Qed.

Lemma pow2_lt_inv (a b : Z) : pow2 a < pow2 b -> (a < b)%Z.
Proof.
  intros L. destruct (Z.lt_ge_cases a b) as [|G]; [assumption|].
  apply pow2_le in G. lra.
Qed.

Lemma pow2_Z (e : Z) : (0 <= e)%Z -> pow2 e == inject_Z (2 ^ e).
Proof. intros L. unfold pow2. now rewrite Zpower_Qpower. Qed.

Lemma pow2_succ (e : Z) : pow2 (e + 1) == 2 * pow2 e.
Proof. rewrite pow2_add. change (pow2 1) with 2. ring. Qed.

(** ** The binade of a positive rational *)

Lemma Qdiv_lt_cross (n d a c : Q) :
  0 < d -> 0 < c -> n * c < a * d -> n / d < a / c.
Proof.
  intros Hd Hc H. apply Qlt_shift_div_r; [assumption|].
  assert (E : a / c * d == a * d / c) by (field; lra).
  rewrite E. apply Qlt_shift_div_l; assumption.
Qed.

Lemma flog2_rough (q : Q) :
  0 < q ->
  let p := (Z.log2 (Qnum q) - Z.log2 (Zpos (Qden q)))%Z in
  pow2 (p - 1) < q /\ q < pow2 (p + 1).
Proof.
  destruct q as [n d]. intros Hq p. cbn [Qnum Qden] in p.
  assert (Hn : (0 < n)%Z).
  { unfold Qlt in Hq. cbn in Hq. lia. }
  pose proof (Z.log2_spec n Hn) as [Ln Un].
  pose proof (Z.log2_spec (Zpos d) (Pos2Z.is_pos d)) as [Ld Ud].
  pose proof (Z.log2_nonneg n) as Hln.
  pose proof (Z.log2_nonneg (Zpos d)) as Hld.
  set (a := Z.log2 n) in *. set (c := Z.log2 (Zpos d)) in *.
  assert (Eq : n # d == inject_Z n / inject_Z (Zpos d)) by apply Qmake_Qdiv.
  assert (Hd : 0 < inject_Z (Zpos d)).
  { change 0 with (inject_Z 0). rewrite <- Zlt_Qlt. lia. }
  assert (Pa : forall k, (0 <= k)%Z -> 0 < inject_Z (2 ^ k)).
  { intros k Hk. change 0 with (inject_Z 0). rewrite <- Zlt_Qlt.
    apply Z.pow_pos_nonneg; lia. }
  split.
  - (* 2^(a - c - 1) < n / d, as 2^a * d < n * 2^(c+1) *)
    assert (E : pow2 (p - 1) == inject_Z (2 ^ a) / inject_Z (2 ^ (c + 1))).
    { unfold p. replace (a - c - 1)%Z with (a + - (c + 1))%Z by lia.
      rewrite pow2_add. unfold pow2 at 2. rewrite Qpower_opp.
      fold (pow2 a). fold (pow2 (c + 1)). rewrite !pow2_Z by lia. reflexivity. }
    rewrite E, Eq. apply Qdiv_lt_cross; [apply Pa; lia | assumption |].
    rewrite <- !inject_Z_mult, <- Zlt_Qlt. nia.
  - assert (E : pow2 (p + 1) == inject_Z (2 ^ (a + 1)) / inject_Z (2 ^ c)).
    { unfold p. replace (a - c + 1)%Z with (a + 1 + - c)%Z by lia.
      rewrite pow2_add. unfold pow2 at 2. rewrite Qpower_opp.
      fold (pow2 c). fold (pow2 (a + 1)). rewrite !pow2_Z by lia. reflexivity. }
    rewrite E, Eq. apply Qdiv_lt_cross; [assumption | apply Pa; lia |].
    rewrite <- !inject_Z_mult, <- Zlt_Qlt. nia.
Qed.

Lemma flog2_spec (q : Q) :
  0 < q -> pow2 (flog2 q) <= q /\ q < pow2 (flog2 q + 1).
Proof.
  intros Hq. destruct (flog2_rough Hq) as [Lo Hi]. unfold flog2.
  set (p := (Z.log2 (Qnum q) - Z.log2 (Zpos (Qden q)))%Z) in *.
  destruct (Qle_bool (pow2 p) q) eqn:E.
  - apply Qle_bool_iff in E. now split.
  - split; [now apply Qlt_le_weak|].
    replace (p - 1 + 1)%Z with p by lia.
    apply Qnot_le_lt. intros L. apply Qle_bool_iff in L. congruence.
Qed.

Lemma flog2_unique (q : Q) (p : Z) :
  pow2 p <= q -> q < pow2 (p + 1) -> flog2 q = p.
Proof.
  intros Lo Hi.
  assert (Hq : 0 < q) by (pose proof (pow2_pos p); lra).
  destruct (flog2_spec Hq) as [Lo' Hi'].
  assert (pow2 p < pow2 (flog2 q + 1)) by lra.
  assert (pow2 (flog2 q) < pow2 (p + 1)) by lra.
  apply pow2_lt_inv in H, H0. lia.
Qed.

Lemma flog2_compat (q q' : Q) : 0 < q -> q == q' -> flog2 q = flog2 q'.
Proof.
  intros Hq E. destruct (flog2_spec Hq) as [Lo Hi].
  symmetry. apply flog2_unique; now rewrite <- E.
Qed.

Lemma flog2_mono (q q' : Q) : 0 < q -> q <= q' -> (flog2 q <= flog2 q')%Z.
Proof.
  intros Hq L.
  destruct (flog2_spec Hq) as [Lo _].
  destruct (@flog2_spec q') as [_ Hi]; [lra|].
  assert (pow2 (flog2 q) < pow2 (flog2 q' + 1)) by lra.
  apply pow2_lt_inv in H. lia.
Qed.

(** ** Rounding to the nearest integer, ties to even *)

Lemma rint_compat (q q' : Q) : q == q' -> rint q = rint q'.
Proof.
  intros E. unfold rint. rewrite <- (Qfloor_comp _ _ E).
  assert (E' : q - inject_Z (Qfloor q) == q' - inject_Z (Qfloor q))
    by (apply Qplus_comp; [exact E | reflexivity]).
  now rewrite (Qcompare_comp _ _ E' _ _ (Qeq_refl (1 # 2))).
Qed.

Lemma rint_Z (z : Z) : rint (inject_Z z) = z.
Proof.
  unfold rint. rewrite Qfloor_Z.
  destruct (Qcompare_spec (inject_Z z - inject_Z z) (1 # 2)) as [E|L|G];
    [exfalso; lra | reflexivity | exfalso; lra].
Qed.

Lemma rint_range (q : Q) : (Qfloor q <= rint q <= Qfloor q + 1)%Z.
Proof.
  unfold rint. destruct (Qcompare _ _); [destruct (Z.even _)| |]; lia.
Qed.

Lemma rint_mono (q q' : Q) : q <= q' -> (rint q <= rint q')%Z.
Proof.
  intros L. pose proof (Qfloor_resp_le _ _ L) as Lf.
  destruct (Z.eq_dec (Qfloor q) (Qfloor q')) as [E|N].
  - unfold rint. rewrite <- E.
    destruct (Qcompare_spec (q - inject_Z (Qfloor q)) (1 # 2)) as [E1|L1|G1];
      destruct (Qcompare_spec (q' - inject_Z (Qfloor q)) (1 # 2)) as [E2|L2|G2];
      try lia; try (exfalso; lra); destruct (Z.even _); lia.
  - pose proof (rint_range q). pose proof (rint_range q'). lia.
Qed.

(** ** Rounding to a grid *)

Lemma roundToGrid_compat (e : Z) (q q' : Q) :
  q == q' -> roundToGrid e q == roundToGrid e q'.
Proof.
  intros E. unfold roundToGrid.
  now rewrite (rint_compat (q := q / pow2 e) (q' := q' / pow2 e)) by now rewrite E.
Qed.

Lemma roundToGrid_mono (e : Z) (q q' : Q) :
  q <= q' -> roundToGrid e q <= roundToGrid e q'.
Proof.
  intros L. unfold roundToGrid. pose proof (pow2_pos e) as P.
  apply Qmult_le_compat_r; [|lra].
  rewrite <- Zle_Qle. apply rint_mono.
  apply Qmult_le_compat_r; [exact L|].
  apply Qlt_le_weak, Qinv_lt_0_compat, P.
Qed.

Lemma roundToGrid_exact (e : Z) (m : Z) :
  roundToGrid e (inject_Z m * pow2 e) == inject_Z m * pow2 e.
Proof.
  unfold roundToGrid. pose proof (pow2_pos e) as P.
  rewrite (rint_compat (q := inject_Z m * pow2 e / pow2 e) (q' := inject_Z m))
    by (field; lra).
  now rewrite rint_Z.
Qed.

(** A point of a grid is a point of every finer grid. *)
Lemma grid_refines (e e' : Z) (m : Z) :
  (e' <= e)%Z ->
  inject_Z m * pow2 e == inject_Z (m * 2 ^ (e - e')) * pow2 e'.
Proof.
  intros L. rewrite inject_Z_mult, <- pow2_Z by lia.
  replace e with ((e - e') + e')%Z at 1 by lia. rewrite pow2_add. ring.
Qed.

Lemma roundToGrid_finer (e e' : Z) (m : Z) :
  (e' <= e)%Z ->
  roundToGrid e' (inject_Z m * pow2 e) == inject_Z m * pow2 e.
Proof.
  intros L. pose proof (grid_refines m L) as G.
  eapply Qeq_trans; [apply roundToGrid_compat, G|].
  eapply Qeq_trans; [apply roundToGrid_exact|]. now symmetry.
Qed.

Lemma roundToGrid_pow2 (e p : Z) : (e <= p)%Z -> roundToGrid e (pow2 p) == pow2 p.
Proof.
  intros L. pose proof (roundToGrid_finer 1 L) as R.
  assert (E : inject_Z 1 * pow2 p == pow2 p) by ring.
  eapply Qeq_trans; [apply roundToGrid_compat; symmetry; exact E|].
  eapply Qeq_trans; [exact R | exact E].
Qed.

Lemma roundToGrid_nonneg (e : Z) (q : Q) : 0 <= q -> 0 <= roundToGrid e q.
Proof.
  intros L. pose proof (roundToGrid_mono e L) as M.
  pose proof (roundToGrid_exact e 0) as Z0.
  assert (E : inject_Z 0 * pow2 e == 0) by ring.
  pose proof (roundToGrid_compat e E) as C. lra.
Qed.

(** ** Rounding to a double *)

Lemma ulpExponent_pos (q : Q) :
  0 < q -> ulpExponent q = Z.max (-1074) (flog2 q - 52).
Proof.
  intros Hq. unfold ulpExponent.
  assert (E : Qabs q == q) by (apply Qabs_pos; lra).
  rewrite (@flog2_compat (Qabs q) q); [reflexivity | lra | exact E].
Qed.

Lemma ulpExponent_compat (q q' : Q) :
  0 < q -> q == q' -> ulpExponent q = ulpExponent q'.
Proof.
  intros Hq E. rewrite !ulpExponent_pos by lra.
  now rewrite (flog2_compat Hq E).
Qed.

Lemma ulpExponent_mono (q q' : Q) :
  0 < q -> q <= q' -> (ulpExponent q <= ulpExponent q')%Z.
Proof.
  intros Hq L. rewrite !ulpExponent_pos by lra.
  pose proof (flog2_mono Hq L). lia.
Qed.

(** What [roundToDouble] does to a positive rational. *)
Lemma roundToDouble_pos (q : Q) :
  0 < q ->
  roundToDouble q =
  if Qle_bool (pow2 1024) (roundToGrid (ulpExponent q) q)
  then Infinity false
  else Fin (Qred (roundToGrid (ulpExponent q) q)).
Proof.
  intros Hq. unfold roundToDouble.
  assert (Qeq_bool q 0 = false) as ->.
  { destruct (Qeq_bool q 0) eqn:E; [|reflexivity].
    apply Qeq_bool_iff in E. lra. }
  cbv zeta.
  assert (Hv : 0 <= roundToGrid (ulpExponent q) q)
    by (apply roundToGrid_nonneg; lra).
  assert (Qle_bool 0 q = true) as -> by (apply Qle_bool_iff; lra).
  assert (Eb : Qle_bool (pow2 1024) (Qabs (roundToGrid (ulpExponent q) q))
               = Qle_bool (pow2 1024) (roundToGrid (ulpExponent q) q)).
  { pose proof (Qabs_pos _ Hv) as Ea.
    destruct (Qle_bool (pow2 1024) (roundToGrid (ulpExponent q) q)) eqn:E.
    - apply Qle_bool_iff. apply Qle_bool_iff in E. lra.
    - destruct (Qle_bool (pow2 1024) (Qabs _)) eqn:E'; [|reflexivity].
      apply Qle_bool_iff in E'.
      assert (Qle_bool (pow2 1024) (roundToGrid (ulpExponent q) q) = true)
        by (apply Qle_bool_iff; lra).
      congruence. }
  now rewrite Eb.
Qed.

Lemma roundToDouble_zero (q : Q) : q == 0 -> roundToDouble q = Fin 0.
Proof.
  intros E. unfold roundToDouble.
  now assert (Qeq_bool q 0 = true) as -> by now apply Qeq_bool_iff.
Qed.

Lemma roundToDouble_compat (q q' : Q) :
  0 <= q -> q == q' -> roundToDouble q = roundToDouble q'.
Proof.
  intros Hq E. destruct (Qlt_le_dec 0 q) as [P|N].
  - rewrite !roundToDouble_pos by lra.
    rewrite <- (ulpExponent_compat P E).
    pose proof (roundToGrid_compat (ulpExponent q) E) as G.
    rewrite (Qred_complete _ _ G).
    destruct (Qle_bool (pow2 1024) (roundToGrid (ulpExponent q) q)) eqn:E1;
      destruct (Qle_bool (pow2 1024) (roundToGrid (ulpExponent q) q')) eqn:E2;
      try reflexivity; exfalso.
    + apply Qle_bool_iff in E1.
      assert (Qle_bool (pow2 1024) (roundToGrid (ulpExponent q) q') = true)
        by (apply Qle_bool_iff; lra). congruence.
    + apply Qle_bool_iff in E2.
      assert (Qle_bool (pow2 1024) (roundToGrid (ulpExponent q) q) = true)
        by (apply Qle_bool_iff; lra). congruence.
  - rewrite !roundToDouble_zero; [reflexivity | lra | lra].
Qed.

(** The grid of a larger rational is coarser, yet rounding stays monotone:
    the power of two between the two binades lies on both grids. *)
Lemma rounded_mono (q q' : Q) :
  0 < q -> q <= q' ->
  roundToGrid (ulpExponent q) q <= roundToGrid (ulpExponent q') q'.
Proof.
  intros Hq L. pose proof (ulpExponent_mono Hq L) as Le.
  destruct (Z.eq_dec (ulpExponent q) (ulpExponent q')) as [E|N].
  - rewrite E. now apply roundToGrid_mono.
  - assert (Hq' : 0 < q') by lra.
    rewrite (ulpExponent_pos Hq), (ulpExponent_pos Hq') in *.
    set (p := flog2 q') in *.
    destruct (flog2_spec Hq) as [_ Hi]. destruct (flog2_spec Hq') as [Lo _].
    fold p in Lo.
    assert (Hp : (flog2 q + 1 <= p)%Z) by lia.
    assert (Hmid : q <= pow2 p /\ pow2 p <= q').
    { split; [|exact Lo]. pose proof (pow2_le Hp). lra. }
    eapply Qle_trans; [apply roundToGrid_mono, Hmid|].
    rewrite roundToGrid_pow2 by lia.
    rewrite <- (@roundToGrid_pow2 (Z.max (-1074) (p - 52)) p) by lia.
    apply roundToGrid_mono, Hmid.
Qed.

Lemma isDouble_value (q : Q) :
  0 < q -> isDouble q ->
  roundToGrid (ulpExponent q) q == q
  /\ roundToGrid (ulpExponent q) q < pow2 1024.
Proof.
  intros Hq D. unfold isDouble in D. rewrite roundToDouble_pos in D by exact Hq.
  destruct (Qle_bool (pow2 1024) (roundToGrid (ulpExponent q) q)) eqn:E;
    [discriminate|].
  assert (D' : Qred (roundToGrid (ulpExponent q) q) = Qred q) by congruence.
  apply Qred_eq_iff in D'. split; [exact D'|].
  apply Qnot_le_lt. intros L. apply Qle_bool_iff in L. congruence.
Qed.

(** Rounding keeps a rational between two doubles between them. *)
Lemma roundToDouble_between (lo q hi : Q) :
  0 <= lo -> lo <= q -> q <= hi -> isDouble lo -> isDouble hi ->
  exists v, roundToDouble q = Fin v /\ lo <= v /\ v <= hi.
Proof.
  intros H0 Hlo Hhi Dlo Dhi. destruct (Qlt_le_dec 0 q) as [P|N].
  - destruct (@isDouble_value hi) as [Ehi Bhi]; [lra | exact Dhi |].
    pose proof (rounded_mono P Hhi) as M.
    rewrite roundToDouble_pos by exact P.
    assert (Qle_bool (pow2 1024) (roundToGrid (ulpExponent q) q) = false) as ->.
    { destruct (Qle_bool _ _) eqn:E; [|reflexivity].
      apply Qle_bool_iff in E. lra. }
    eexists. split; [reflexivity|]. rewrite Qred_correct. split; [|lra].
    destruct (Qlt_le_dec 0 lo) as [Plo|Nlo].
    + destruct (isDouble_value Plo Dlo) as [Elo _].
      pose proof (rounded_mono Plo Hlo). lra.
    + pose proof (@roundToGrid_nonneg (ulpExponent q) q). lra.
  - exists 0. split; [apply roundToDouble_zero; lra | lra].
Qed.

(** Every [m * 2^e] with a mantissa of at most 53 bits, an exponent no
    smaller than that of the subnormals and a value below [2^1024] is a
    double. *)
Lemma isDouble_grid_lt (q : Q) (m e : Z) :
  q == inject_Z m * pow2 e ->
  (0 <= m < 2 ^ 53)%Z -> (-1074 <= e)%Z -> q < pow2 1024 ->
  isDouble q.
Proof.
  intros E Hm He Hq. unfold isDouble. pose proof (pow2_pos e) as Pe.
  destruct (Z.eq_dec m 0) as [->|Nm].
  - assert (E0 : q == 0) by (rewrite E; ring).
    rewrite (roundToDouble_zero E0). now rewrite (Qred_complete _ _ E0).
  - assert (Pm : 0 < inject_Z m).
    { change 0 with (inject_Z 0). rewrite <- Zlt_Qlt. lia. }
    assert (P : 0 < q).
    { rewrite E. apply Qmult_lt_0_compat; assumption. }
    rewrite roundToDouble_pos by exact P.
    assert (Hu : (ulpExponent q <= e)%Z).
    { rewrite ulpExponent_pos by exact P.
      destruct (flog2_spec P) as [Lo _].
      assert (Hlt : q < pow2 (53 + e)).
      { rewrite E, pow2_add, (pow2_Z (e := 53)) by lia.
        apply Qmult_lt_compat_r; [exact Pe|]. rewrite <- Zlt_Qlt. lia. }
      assert (pow2 (flog2 q) < pow2 (53 + e)) by lra.
      apply pow2_lt_inv in H. lia. }
    assert (Ev : roundToGrid (ulpExponent q) q == q).
    { eapply Qeq_trans; [apply roundToGrid_compat, E|].
      eapply Qeq_trans; [apply roundToGrid_finer, Hu | now symmetry]. }
    assert (Qle_bool (pow2 1024) (roundToGrid (ulpExponent q) q) = false) as ->.
    { destruct (Qle_bool _ _) eqn:Eo; [|reflexivity].
      apply Qle_bool_iff in Eo. lra. }
    now rewrite (Qred_complete _ _ Ev).
Qed.

Lemma isDouble_grid (q : Q) (m e : Z) :
  q == inject_Z m * pow2 e ->
  (0 <= m <= 2 ^ 53)%Z -> (-1074 <= e)%Z -> q < pow2 1024 ->
  isDouble q.
Proof.
  intros E Hm He Hq. destruct (Z.eq_dec m (2 ^ 53)) as [->|N].
  - apply (@isDouble_grid_lt q 1 (53 + e)); [|lia|lia|exact Hq].
    rewrite E, pow2_add, (pow2_Z (e := 53)) by lia. ring.
  - apply (@isDouble_grid_lt q m e); [exact E|lia|exact He|exact Hq].
Qed.

Lemma roundToDouble_overflow (q : Q) :
  pow2 1024 <= q -> roundToDouble q = Infinity false.
Proof.
  intros L. pose proof (pow2_pos 1024) as P0.
  assert (P : 0 < q) by lra.
  rewrite roundToDouble_pos by exact P.
  destruct (flog2_spec P) as [Lo _].
  assert (Hf : (1024 <= flog2 q)%Z).
  { rewrite <- (@flog2_unique (pow2 1024) 1024);
      [apply flog2_mono; assumption | lra | apply pow2_lt; lia]. }
  assert (Hv : pow2 (flog2 q) <= roundToGrid (ulpExponent q) q).
  { rewrite <- (@roundToGrid_pow2 (ulpExponent q) (flog2 q))
      by (rewrite ulpExponent_pos by exact P; lia).
    apply roundToGrid_mono, Lo. }
  pose proof (pow2_le Hf).
  assert (Qle_bool (pow2 1024) (roundToGrid (ulpExponent q) q) = true) as ->
    by (apply Qle_bool_iff; lra).
  reflexivity.
Qed.

Lemma isDouble_compat (q q' : Q) : 0 <= q -> q == q' -> isDouble q -> isDouble q'.
Proof.
  unfold isDouble. intros Hq E D.
  now rewrite <- (roundToDouble_compat Hq E), <- (Qred_complete _ _ E).
Qed.

(** A positive double is a point of the grid of its own binade. *)
Lemma isDouble_inv (q : Q) :
  0 < q -> isDouble q ->
  exists m : Z,
    (0 < m < 2 ^ 53)%Z
    /\ q == inject_Z m * pow2 (ulpExponent q)
    /\ q < pow2 1024.
Proof.
  intros Hq D. destruct (isDouble_value Hq D) as [Ev Bv].
  set (e := ulpExponent q) in *. pose proof (pow2_pos e) as Pe.
  exists (rint (q / pow2 e)). fold (roundToGrid e q).
  set (m := rint (q / pow2 e)) in *.
  assert (Em : q == inject_Z m * pow2 e) by (symmetry; exact Ev).
  split; [|split; [exact Em | lra]].
  destruct (flog2_spec Hq) as [_ Hi].
  assert (He : (flog2 q + 1 <= 53 + e)%Z).
  { unfold e. rewrite ulpExponent_pos by exact Hq. lia. }
  pose proof (pow2_le He) as L.
  assert (Hlt : inject_Z m * pow2 e < inject_Z (2 ^ 53) * pow2 e).
  { rewrite <- (pow2_Z (e := 53)), <- pow2_add by lia. lra. }
  assert (Hgt : inject_Z 0 * pow2 e < inject_Z m * pow2 e).
  { change (inject_Z 0) with 0. lra. }
  apply Qmult_lt_r in Hlt, Hgt; try exact Pe.
  rewrite <- Zlt_Qlt in Hlt, Hgt. lia.
Qed.

(** What rounding gives is a double. *)
Lemma roundToDouble_isDouble (q v : Q) :
  0 <= q -> roundToDouble q = Fin v -> isDouble v /\ 0 <= v.
Proof.
  intros Hq R. destruct (Qlt_le_dec 0 q) as [P|N].
  - rewrite roundToDouble_pos in R by exact P.
    set (e := ulpExponent q) in *. pose proof (pow2_pos e) as Pe.
    destruct (Qle_bool (pow2 1024) (roundToGrid e q)) eqn:Eo; [discriminate|].
    assert (Ev : v = Qred (roundToGrid e q)) by congruence.
    assert (Ev' : v == roundToGrid e q) by (rewrite Ev; apply Qred_correct).
    assert (Hv : v < pow2 1024).
    { rewrite Ev'. apply Qnot_le_lt. intros L. apply Qle_bool_iff in L. congruence. }
    split; [|rewrite Ev'; apply roundToGrid_nonneg; lra].
    apply (@isDouble_grid v (rint (q / pow2 e)) e); [exact Ev' | | | exact Hv].
    + destruct (flog2_spec P) as [_ Hi].
      assert (He : (flog2 q + 1 <= 53 + e)%Z).
      { unfold e. rewrite ulpExponent_pos by exact P. lia. }
      pose proof (pow2_le He) as L.
      assert (Hd : 0 <= q / pow2 e /\ q / pow2 e <= inject_Z (2 ^ 53)).
      { split.
        - apply Qle_shift_div_l; [exact Pe | lra].
        - apply Qle_shift_div_r; [exact Pe|].
          rewrite <- (pow2_Z (e := 53)), <- pow2_add by lia. lra. }
      destruct Hd as [Hd0 Hd1].
      apply rint_mono in Hd0, Hd1. change 0 with (inject_Z 0) in Hd0.
      rewrite rint_Z in Hd0, Hd1. lia.
    + unfold e. rewrite ulpExponent_pos by exact P. lia.
  - rewrite roundToDouble_zero in R by lra.
    assert (v = 0) as -> by congruence. split; [reflexivity | lra].
Qed.

(** Rounding a non-negative rational never gives [NaN] or [-Infinity]. *)
Lemma roundToDouble_nonneg (q : Q) :
  0 <= q ->
  roundToDouble q = Infinity false
  \/ exists v, roundToDouble q = Fin v /\ isDouble v /\ 0 <= v.
Proof.
  intros Hq. destruct (roundToDouble q) as [|s|v] eqn:R.
  - exfalso. destruct (Qlt_le_dec 0 q) as [P|N].
    + rewrite roundToDouble_pos in R by exact P.
      destruct (Qle_bool _ _); discriminate.
    + rewrite roundToDouble_zero in R by lra. discriminate.
  - left. destruct (Qlt_le_dec 0 q) as [P|N].
    + rewrite roundToDouble_pos in R by exact P.
      destruct (Qle_bool _ _); [now symmetry | discriminate].
    + rewrite roundToDouble_zero in R by lra. discriminate.
  - right. exists v. split; [reflexivity|]. apply (roundToDouble_isDouble Hq R).
Qed.

Lemma isDouble_whole (q : Q) (z : Z) :
  (0 <= z <= 2 ^ 53)%Z -> q == inject_Z z -> isDouble q.
Proof.
  intros Hz E. apply (@isDouble_grid q z 0); [rewrite E; change (pow2 0) with 1; ring | exact Hz | lia |].
  rewrite E. rewrite (pow2_Z (e := 1024)) by lia. rewrite <- Zlt_Qlt.
  eapply Z.le_lt_trans; [apply Hz|]. apply Z.pow_lt_mono_r; lia.
Qed.

(** Twice a double is a double, short of overflow. *)
Lemma isDouble_twice (q : Q) :
  0 <= q -> isDouble q -> q < pow2 1023 -> isDouble (2 * q).
Proof.
  intros Hq D B. destruct (Qlt_le_dec 0 q) as [P|N].
  - destruct (isDouble_inv P D) as (m & Hm & Em & _).
    apply (@isDouble_grid (2 * q) m (ulpExponent q + 1)).
    + rewrite pow2_succ. rewrite Em at 1. ring.
    + lia.
    + rewrite ulpExponent_pos by exact P. lia.
    + replace 1024%Z with (1023 + 1)%Z by lia. rewrite pow2_succ. lra.
  - apply (@isDouble_whole (2 * q) 0); [lia | change (inject_Z 0) with 0; lra].
Qed.

(** Half a double is a double when it stays among the normal numbers. *)
Lemma isDouble_half (q : Q) :
  pow2 (-1021) <= q -> isDouble q -> isDouble (q / 2).
Proof.
  intros B D. pose proof (pow2_pos (-1021)) as P0.
  assert (P : 0 < q) by lra.
  destruct (isDouble_inv P D) as (m & Hm & Em & Hq).
  assert (Hf : (-1021 <= flog2 q)%Z).
  { rewrite <- (@flog2_unique (pow2 (-1021)) (-1021));
      [apply flog2_mono; assumption | lra | apply pow2_lt; lia]. }
  apply (@isDouble_grid (q / 2) m (ulpExponent q - 1)).
  - assert (E2 : pow2 (ulpExponent q) == 2 * pow2 (ulpExponent q - 1)).
    { rewrite <- pow2_succ. now replace (ulpExponent q - 1 + 1)%Z with (ulpExponent q) by lia. }
    rewrite Em at 1. rewrite E2. field.
  - lia.
  - rewrite ulpExponent_pos by exact P. lia.
  - assert (E : q / 2 == q * (1 # 2)) by field. rewrite E. lra.
Qed.

(** ** The doubles of the model and the doubles of the machine *)

(** The arithmetic of the model is meant to be that of IEEE 754 binary64,
    which is what the primitive floats compute.  On these inputs (inexact
    sums and products, ties, negative and subnormal numbers, overflow, the
    infinities) the two agree. *)
Example model_agrees_with_primitive_floats :
  (* 0.1 + 0.2 *)
  ofFloat (0x1.999999999999ap-4 + 0x1.999999999999ap-3)
  = fadd (ofFloat 0x1.999999999999ap-4) (ofFloat 0x1.999999999999ap-3)
  (* a tie, to the even neighbour: 2^53 + 1 *)
  /\ ofFloat (0x1p53 + 1) = fadd (ofFloat 0x1p53) (ofFloat 1)
  /\ ofFloat (0x1p53 + 3) = fadd (ofFloat 0x1p53) (ofFloat 3)
  (* the largest draw *)
  /\ ofFloat (1 + 0x1.fffffffffffffp-1) = fadd (Fin 1) (ofFloat 0x1.fffffffffffffp-1)
  (* a product that is rounded up *)
  /\ ofFloat (1000 * (1 + 0x1.999999999998p-6))
     = fmul (Fin 1000) (fadd (Fin 1) (ofFloat 0x1.999999999998p-6))
  /\ ofFloat (0x1.5555555555555p-2 * 0x1.5555555555555p-2)
     = fmul (ofFloat 0x1.5555555555555p-2) (ofFloat 0x1.5555555555555p-2)
  (* negative numbers *)
  /\ ofFloat (-0x1.5555555555555p-2 * 3) = fmul (ofFloat (-0x1.5555555555555p-2)) (Fin 3)
  (* subnormal numbers *)
  /\ ofFloat (0x3p-1074 / 2) = fhalf (ofFloat 0x3p-1074)
  /\ ofFloat (0x1p-1074 / 2) = fhalf (ofFloat 0x1p-1074)
  /\ ofFloat (0x1.8p-1022 * 0x1.8p-30) = fmul (ofFloat 0x1.8p-1022) (ofFloat 0x1.8p-30)
  (* overflow *)
  /\ ofFloat (0x1.fffffffffffffp1023 * 2) = fmul (ofFloat 0x1.fffffffffffffp1023) (Fin 2)
  /\ ofFloat (0x1.fffffffffffffp1023 + 0x1p970) = fadd (ofFloat 0x1.fffffffffffffp1023) (ofFloat 0x1p970)
  /\ ofFloat (0x1.fffffffffffffp1023 + 0x1.fffffffffffffp969) = fadd (ofFloat 0x1.fffffffffffffp1023) (ofFloat 0x1.fffffffffffffp969)
  (* infinities and NaN *)
  /\ ofFloat (infinity * 0) = fmul (Infinity false) (Fin 0)
  /\ ofFloat (infinity * 1000) = fmul (Infinity false) (Fin 1000)
  /\ ofFloat (infinity + neg_infinity) = fadd (Infinity false) (Infinity true)
  /\ ofFloat (infinity / 2) = fhalf (Infinity false).
Proof. repeat split; vm_compute; reflexivity. Qed.

(** ** The arithmetic of the delay *)

Lemma roundHalfUp_bounds (x : Q) :
  x - (1 # 2) < inject_Z (roundHalfUp x) /\ inject_Z (roundHalfUp x) <= x + (1 # 2).
Proof.
  unfold roundHalfUp. split.
  - pose proof (Qlt_floor (x + (1 # 2))) as L.
    rewrite inject_Z_plus in L. change (inject_Z 1) with 1 in L. lra.
  - apply Qfloor_le.
Qed.

Lemma roundHalfUp_nonneg (x : Q) : 0 <= x -> (0 <= roundHalfUp x)%Z.
Proof.
  intros Hx. destruct (roundHalfUp_bounds x) as [Lo _].
  assert (Hz : inject_Z (-1) < inject_Z (roundHalfUp x)).
  { eapply Qle_lt_trans; [|exact Lo]. change (inject_Z (-1)) with (-1 # 1). lra. }
  rewrite <- Zlt_Qlt in Hz. lia.
Qed.


Lemma isDouble_1 : isDouble 1.
Proof. apply (@isDouble_whole 1 1); [lia | reflexivity]. Qed.

Lemma isDouble_2 : isDouble 2.
Proof. apply (@isDouble_whole 2 2); [lia | reflexivity]. Qed.

Lemma isDouble_0 : isDouble 0.
Proof. apply (@isDouble_whole 0 0); [lia | reflexivity]. Qed.

(** [1 + Math.random()] lies between 1 and 2; it is 2 for the largest
    draw. *)
Lemma one_plus_draw (r : Q) :
  0 <= r -> r < 1 ->
  exists s, fadd (Fin 1) (Fin r) = Fin s /\ 1 <= s /\ s <= 2.
Proof.
  intros H0 H1. cbn [fadd].
  apply roundToDouble_between; [lra | lra | lra | apply isDouble_1 | apply isDouble_2].
Qed.

(** [(backoff * (1 + Math.random())) / 2] stays between two doubles [lo] and
    [B] that enclose half the backoff [B]. *)
Lemma jittered_half (B lo r : Q) :
  0 <= lo -> 2 * lo <= B -> isDouble lo -> isDouble B -> isDouble (2 * B) ->
  0 <= r -> r < 1 ->
  exists h,
    fhalf (fmul (Fin B) (fadd (Fin 1) (Fin r))) = Fin h /\ lo <= h /\ h <= B.
Proof.
  intros Hlo HB Dlo DB D2B H0 H1.
  destruct (one_plus_draw H0 H1) as (s & -> & Hs1 & Hs2).
  cbn [fmul].
  assert (HB0 : 0 <= B) by lra.
  assert (Hp : B <= B * s /\ B * s <= 2 * B) by nra.
  destruct (@roundToDouble_between B (B * s) (2 * B)) as (p & -> & Hp1 & Hp2);
    [lra | apply Hp | apply Hp | exact DB | exact D2B |].
  cbn [fhalf].
  assert (E : p / 2 == p * (1 # 2)) by field.
  destruct (@roundToDouble_between lo (p / 2) B) as (h & -> & Hh1 & Hh2);
    [lra | rewrite E; lra | rewrite E; lra | exact Dlo | exact DB |].
  exists h. now repeat split.
Qed.

Lemma safeMs_isDouble (q : Q) : safeMs q -> isDouble q /\ 0 <= q /\ q < pow2 53.
Proof.
  intros (z & Hz & E). split; [apply (@isDouble_whole q z); [lia | exact E]|].
  rewrite E, (pow2_Z (e := 53)) by lia. change 0 with (inject_Z 0).
  rewrite <- Zle_Qle, <- Zlt_Qlt. lia.
Qed.

Lemma Math_pow2_small (k : nat) :
  (k < 1024)%nat -> Math_pow2 k = Fin (inject_Z (2 ^ Z.of_nat k)).
Proof.
  intros Hk. unfold Math_pow2.
  now assert ((k <? 1024)%nat = true) as -> by now apply Nat.ltb_lt.
Qed.

Lemma Math_pow2_large (k : nat) : (1024 <= k)%nat -> Math_pow2 k = Infinity false.
Proof.
  intros Hk. unfold Math_pow2.
  now assert ((k <? 1024)%nat = false) as -> by now apply Nat.ltb_ge.
Qed.

Lemma Infinity_times_positive (b : Q) :
  0 < b -> fmul (Infinity false) (Fin b) = Infinity false.
Proof.
  intros Pb. cbn [fmul].
  assert (Qeq_bool b 0 = false) as ->.
  { destruct (Qeq_bool b 0) eqn:E0; [|reflexivity]. apply Qeq_bool_iff in E0. lra. }
  now assert (Qle_bool 0 b = true) as -> by (apply Qle_bool_iff; lra).
Qed.

(** [Math.pow(2, attempt) * baseMs] for a non-negative [baseMs] is a
    non-negative double or [Infinity]; only [Infinity * 0] is [NaN]. *)
Lemma scaled_base_nonneg (k : nat) (b : Q) :
  0 <= b -> (b == 0 -> (k < 1024)%nat) ->
  fmul (Math_pow2 k) (Fin b) = Infinity false
  \/ exists v, fmul (Math_pow2 k) (Fin b) = Fin v /\ isDouble v /\ 0 <= v.
Proof.
  intros Hb Hk. destruct (Nat.lt_ge_cases k 1024) as [Lt|Ge].
  - rewrite (Math_pow2_small Lt). cbn [fmul]. apply roundToDouble_nonneg.
    assert (0 <= inject_Z (2 ^ Z.of_nat k)).
    { change 0 with (inject_Z 0). rewrite <- Zle_Qle. apply Z.pow_nonneg. lia. }
    nra.
  - left. rewrite (Math_pow2_large Ge). apply Infinity_times_positive.
    destruct (Qlt_le_dec 0 b) as [P|N]; [exact P|].
    assert (E : b == 0) by lra. specialize (Hk E). lia.
Qed.

(** For a safe integer [baseMs] the product is exact, short of overflow. *)
Lemma scaled_base_safe (k : nat) (b : Q) :
  safeMs b -> (b == 0 -> (k < 1024)%nat) ->
  (exists v, fmul (Math_pow2 k) (Fin b) = Fin v /\ v == pow2 (Z.of_nat k) * b)
  \/ (fmul (Math_pow2 k) (Fin b) = Infinity false
      /\ pow2 1024 <= pow2 (Z.of_nat k) * b).
Proof.
  intros (z & Hz & Ez) Hk. pose proof (pow2_pos (Z.of_nat k)) as Pk.
  assert (Hb : 0 <= b).
  { rewrite Ez. change 0 with (inject_Z 0). rewrite <- Zle_Qle. lia. }
  destruct (Nat.lt_ge_cases k 1024) as [Lt|Ge].
  - rewrite (Math_pow2_small Lt). cbn [fmul].
    set (x := inject_Z (2 ^ Z.of_nat k) * b).
    assert (E : x == pow2 (Z.of_nat k) * b)
      by (unfold x; rewrite pow2_Z by lia; reflexivity).
    destruct (Qlt_le_dec x (pow2 1024)) as [L|G].
    + left. exists (Qred x). split; [|now rewrite Qred_correct].
      apply (@isDouble_grid x z (Z.of_nat k)); [|lia|lia|exact L].
      rewrite E, Ez. ring.
    + right. split; [now apply roundToDouble_overflow | now rewrite <- E].
  - right. rewrite (Math_pow2_large Ge).
    assert (Hz1 : (1 <= z)%Z).
    { destruct (Z.eq_dec z 0) as [->|N]; [|lia].
      assert (E0 : b == 0) by exact Ez. specialize (Hk E0). lia. }
    assert (Hb1 : 1 <= b).
    { rewrite Ez. change 1 with (inject_Z 1). now rewrite <- Zle_Qle. }
    split; [apply Infinity_times_positive; lra|].
    assert (L : pow2 1024 <= pow2 (Z.of_nat k)) by (apply pow2_le; lia).
    pose proof (pow2_pos 1024). nra.
Qed.

(** ** The backoff delay: claim C6 *)

Section Backoff.
Context {Key Value Revision : Type}.
Variable options : RetryCollectionSubscriptionOptions Key Value Revision.

(** For safe integers [baseMs] and [maxDelayMs] the backoff is the exact
    [min(maxDelayMs, 2^attempt * baseMs)]: the product is exact, and where
    it overflows the minimum is [maxDelayMs].  Only [baseMs = 0] from
    attempt 1024 on is excepted: there the backoff is [NaN]. *)
Lemma backoff_safe (k : nat) (b M : Q) :
  baseMs options = Fin b -> maxDelayMs options = Fin M ->
  safeMs b -> safeMs M -> (b == 0 -> (k < 1024)%nat) ->
  exists B,
    backoff options k = Fin B
    /\ B == Qmin M (pow2 (Z.of_nat k) * b)
    /\ (M <= pow2 (Z.of_nat k) * b -> B = M)
    /\ safeMs B.
Proof.
  intros Eb EM Sb SM Hk. unfold backoff. rewrite Eb, EM.
  destruct (safeMs_isDouble SM) as (_ & HM0 & HM1).
  destruct (@scaled_base_safe k b Sb Hk) as [(v & -> & Ev)|[-> G]].
  - cbn [Math_min]. destruct (Qle_bool M v) eqn:C.
    + apply Qle_bool_iff in C. exists M. split; [reflexivity|].
      split; [|split; [reflexivity | exact SM]].
      symmetry. apply Q.min_l. now rewrite <- Ev.
    + assert (L : v < M).
      { apply Qnot_le_lt. intros L. apply Qle_bool_iff in L. congruence. }
      exists v. split; [reflexivity|].
      split; [|split].
      * symmetry. rewrite <- Ev. apply Q.min_r. lra.
      * intros G. lra.
      * destruct Sb as (zb & Hzb & Ezb). destruct SM as (zM & HzM & EzM).
        exists (2 ^ Z.of_nat k * zb)%Z.
        assert (E : v == inject_Z (2 ^ Z.of_nat k * zb)).
        { rewrite Ev, Ezb, inject_Z_mult, pow2_Z by lia. reflexivity. }
        split; [|exact E].
        rewrite E, EzM in L. rewrite <- Zlt_Qlt in L.
        split; [apply Z.mul_nonneg_nonneg; [apply Z.pow_nonneg|]; lia | lia].
  - cbn [Math_min]. exists M. split; [reflexivity|].
    split; [|split; [reflexivity | exact SM]].
    symmetry. apply Q.min_l.
    assert (pow2 53 <= pow2 1024) by (apply pow2_le; lia). lra.
Qed.

(** For non-negative doubles the backoff is a double between 0 and
    [maxDelayMs], with the same exception. *)
Lemma backoff_double (k : nat) (b M : Q) :
  baseMs options = Fin b -> maxDelayMs options = Fin M ->
  0 <= b -> 0 <= M -> isDouble M -> (b == 0 -> (k < 1024)%nat) ->
  exists B,
    backoff options k = Fin B /\ isDouble B /\ 0 <= B /\ B <= M.
Proof.
  intros Eb EM Hb HM DM Hk. unfold backoff. rewrite Eb, EM.
  destruct (@scaled_base_nonneg k b Hb Hk) as [->|(v & -> & Dv & Hv)].
  - cbn [Math_min]. exists M. repeat split; [exact DM | exact HM | lra].
  - cbn [Math_min]. destruct (Qle_bool M v) eqn:C.
    + exists M. repeat split; [exact DM | exact HM | lra].
    + assert (L : v < M).
      { apply Qnot_le_lt. intros L. apply Qle_bool_iff in L. congruence. }
      exists v. repeat split; [exact Dv | exact Hv | lra].
Qed.

(** With [baseMs = 0] the backoff is [NaN] from attempt 1024 on, whatever
    [maxDelayMs]: [Math.pow(2, 1024)] is [Infinity], and [Infinity * 0] is
    [NaN]. *)
Lemma backoff_NaN (k : nat) (b : Q) :
  baseMs options = Fin b -> b == 0 -> (1024 <= k)%nat ->
  forall r, backoff options k = NaN /\ delayMs options k r = NaN.
Proof.
  intros Eb E0 Hk r.
  assert (EB : backoff options k = NaN).
  { unfold backoff. rewrite Eb, (Math_pow2_large Hk). cbn [fmul].
    assert (Qeq_bool b 0 = true) as -> by now apply Qeq_bool_iff.
    now destruct (maxDelayMs options) as [| [|] |]. }
  split; [exact EB|]. unfold delayMs. rewrite EB. reflexivity.
Qed.


End Backoff.

(** ** The retry loop *)

Section LoopFacts.
Context {Key Value Revision : Type} `{KeyEq Key}.

Variable options : RetryCollectionSubscriptionOptions Key Value Revision.
Variable env : Environment Key Value.

Implicit Types st : JsMap.t (K := Key) (V := Revision).
Implicit Types ls : LoopState Key Revision.

(** The generator only ever constructs the two protocol errors. *)
Lemma diffLoop_error updates : forall st ns d st' e,
  diffLoop options updates st ns d = (st', inl e) -> isProtocolViolation e = true.
Proof.
  induction updates as [|u updates IH]; intros st ns d st' e; simpl.
  - discriminate.
  - destruct (value u); [apply IH|].
    intros [= _ <-]. reflexivity.
Qed.

Lemma applyLoop_error updates : forall st st' e,
  applyLoop options updates st = (st', Some e) -> isProtocolViolation e = true.
Proof.
  induction updates as [|u updates IH]; intros st st' e; simpl.
  - discriminate.
  - destruct (value u); [apply IH|].
    destruct (JsMap.has (key u) st); simpl; [apply IH|].
    intros [= _ <-]. reflexivity.
Qed.

Lemma handleUpdates_error outerCount innerCount updates st st' e :
  handleUpdates options outerCount innerCount updates st = (st', inl e) ->
  isProtocolViolation e = true.
Proof.
  unfold handleUpdates, diffBranch, applyBranch.
  destruct ((innerCount =? 0)%Z && negb (outerCount =? 0)%Z).
  - destruct (diffLoop options updates st JsMap.empty []) as [st0 [e0|[ns d]]] eqn:E;
      intros [= _ <-]. eapply diffLoop_error, E.
  - destruct (applyLoop options updates st) as [st0 [e0|]] eqn:E;
      intros [= _ <-]. eapply applyLoop_error, E.
Qed.

Lemma protocol_violation_not_abort (e : Thrown Key) :
  isProtocolViolation e = true -> isAbortError e = false.
Proof. now destruct e. Qed.

(** Any batch received leaves [attempt] unset. *)
Lemma forAwait_attempt outerCount pending ending : forall innerCount st attempt,
  snd (fst (forAwait options outerCount innerCount pending ending st attempt)) =
  match pending with [] => attempt | _ :: _ => None end.
Proof.
  induction pending as [|updates rest IH]; intros innerCount st attempt;
    [reflexivity|].
  cbn [forAwait].
  destruct (handleUpdates options outerCount (innerCount + 1) updates st)
    as [st' [e|batch]]; [reflexivity|].
  specialize (IH (innerCount + 1)%Z st' None).
  destruct (forAwait options outerCount (innerCount + 1) rest ending st' None)
    as [[[events st''] attempt'] result].
  simpl in *. rewrite IH. now destruct rest.
Qed.

(** A source that ends by throwing makes the [try] block throw, whatever
    happens to its batches. *)
Lemma forAwait_throws outerCount e pending : forall innerCount st attempt,
  isAbortError e = false ->
  exists e',
    snd (forAwait options outerCount innerCount pending (Throws e) st attempt)
    = TryThrows e'
    /\ isAbortError e' = false.
Proof.
  induction pending as [|updates rest IH]; intros innerCount st attempt He.
  - now exists e.
  - cbn [forAwait].
    destruct (handleUpdates options outerCount (innerCount + 1) updates st)
      as [st' [e0|batch]] eqn:Eh.
    + exists e0. split; [reflexivity|].
      eapply protocol_violation_not_abort, handleUpdates_error, Eh.
    + destruct (IH (innerCount + 1)%Z st' None He) as (e' & Hr & He').
      destruct (forAwait options outerCount (innerCount + 1) rest (Throws e) st' None)
        as [[[events st''] attempt'] result].
      now exists e'.
Qed.

Lemma budgetExhausted_nat (n a : nat) :
  maxAttempts options = Some (inject_Z (Z.of_nat n)) ->
  budgetExhausted options a = (n <=? a)%nat.
Proof.
  intros E. unfold budgetExhausted. rewrite E.
  destruct (Nat.leb_spec n a) as [L|L].
  - apply Qle_bool_iff. rewrite <- Zle_Qle. lia.
  - destruct (Qle_bool _ _) eqn:Q; [|reflexivity].
    apply Qle_bool_iff in Q. rewrite <- Zle_Qle in Q. lia.
Qed.

Lemma run_continues fuel ls events ls' :
  iteration options env ls = (events, inr ls') ->
  run options env (S fuel) ls =
  (events ++ fst (run options env fuel ls'), snd (run options env fuel ls')).
Proof.
  intros E. simpl. rewrite E. now destruct (run options env fuel ls').
Qed.

Lemma run_ends fuel ls events outcome :
  iteration options env ls = (events, inl outcome) ->
  run options env (S fuel) ls = (events, outcome).
Proof.
  intros E. simpl. now rewrite E.
Qed.
End LoopFacts.

(** ** The attempt budget: claim C4 *)

Section Budget.
Context {Key Value Revision : Type} `{KeyEq Key}.

Variable options : RetryCollectionSubscriptionOptions Key Value Revision.
Variable env : Environment Key Value.

Variable n : nat.
Variable err : nat -> Thrown Key.
Variable hook : OnError Key.

Hypothesis budget : maxAttempts options = Some (inject_Z (Z.of_nat n)).
Hypothesis hooked : onError options = Some hook.
Hypothesis hook_returns : forall i e a d, hook i e a d = None.
Hypothesis source_fails :
  forall i, subscribe env (Z.of_nat i) = mkSubscription [] (Throws (err i)).
Hypothesis not_cancelled : forall i, isAbortError (err i) = false.
Hypothesis delay_elapses : forall i, delayAborted env i = false.

Lemma iteration_before_init st (a : nat) :
  iteration options env (mkLoopState st (Some a) (Z.of_nat a - 1)) =
  if (n <=? a)%nat
  then ([Subscribed (Z.of_nat a)], inl (Exhausted (err a)))
  else (retriedAttempt options env (err a) a,
        inr (mkLoopState st (Some (S a)) (Z.of_nat (S a) - 1))).
Proof.
  unfold iteration. cbn [outerCount state attempt].
  replace (Z.of_nat a - 1 + 1)%Z with (Z.of_nat a) by lia.
  rewrite source_fails. cbn [batches ending forAwait].
  unfold catchBlock. rewrite not_cancelled. rewrite budgetExhausted_nat with (n := n) by exact budget.
  destruct (n <=? a)%nat; [reflexivity|].
  unfold callOnError. rewrite hooked, hook_returns, delay_elapses.
  unfold retriedAttempt. cbn [app].
  replace (Z.of_nat (S a) - 1)%Z with (Z.of_nat a) by lia. reflexivity.
Qed.

Lemma run_before_init (gap : nat) : forall (a : nat) st fuel,
  (a + gap = n)%nat ->
  run options env (S gap + fuel) (mkLoopState st (Some a) (Z.of_nat a - 1)) =
  (flat_map (fun i => retriedAttempt options env (err i) i) (seq a gap)
   ++ [Subscribed (Z.of_nat n)],
   Exhausted (err n)).
Proof.
  induction gap as [|gap IH]; intros a st fuel E.
  - replace a with n by lia. cbn [Nat.add seq flat_map app].
    apply run_ends. rewrite iteration_before_init, Nat.leb_refl. reflexivity.
  - change (S (S gap) + fuel)%nat with (S (S gap + fuel)).
    erewrite run_continues.
    2:{ rewrite iteration_before_init.
        destruct (Nat.leb_spec n a); [lia | reflexivity]. }
    rewrite (IH (S a)) by lia. cbn [fst snd seq flat_map].
    now rewrite <- app_assoc.
Qed.

Lemma subscriptions_retried (gap : nat) : forall a : nat,
  subscriptions
    (flat_map (fun i => retriedAttempt options env (err i) i) (seq a gap)
     ++ [Subscribed (Z.of_nat n)])
  = map Z.of_nat (seq a gap) ++ [Z.of_nat n].
Proof.
  induction gap as [|gap IH]; intros a; [reflexivity|].
  cbn [seq flat_map map]. unfold subscriptions in *.
  rewrite <- app_assoc, flat_map_app, IH. reflexivity.
Qed.

Lemma hookCalls_retried (gap : nat) : forall a : nat,
  map (fun call => snd (fst call))
    (hookCalls
       (flat_map (fun i => retriedAttempt options env (err i) i) (seq a gap)
        ++ [Subscribed (Z.of_nat n)]))
  = map Some (seq a gap).
Proof.
  induction gap as [|gap IH]; intros a; [reflexivity|].
  cbn [seq flat_map map]. unfold hookCalls in *.
  rewrite <- app_assoc, flat_map_app, map_app, IH. reflexivity.
Qed.

Lemma delays_retried (gap : nat) : forall a : nat,
  List.length
    (delays
       (flat_map (fun i => retriedAttempt options env (err i) i) (seq a gap)
        ++ [Subscribed (Z.of_nat n)]))
  = gap.
Proof.
  induction gap as [|gap IH]; intros a; [reflexivity|].
  cbn [seq flat_map]. unfold delays in *.
  rewrite <- app_assoc, flat_map_app, length_app, IH. reflexivity.
Qed.

(** C4.  With [maxAttempts = n], a hook that returns and a signal that never
    aborts, when every subscription fails with a non-cancellation error
    before any batch: the source is subscribed [n + 1] times, that is [n]
    retries, each after its backoff delay; the failure of the last
    subscription, the [(n + 1)]-th, is what the consumer receives; and the
    hook is called exactly [n] times, with the attempt numbers [0 .. n - 1]
    in increasing order. *)
Theorem retries_stop_at_maxAttempts (fuel : nat) :
  (n < fuel)%nat ->
  exists events,
    retryCollectionSubscription options env fuel = (events, Exhausted (err n))
    /\ rejection (snd (retryCollectionSubscription options env fuel)) = Some (err n)
    /\ events =
       flat_map (fun i => retriedAttempt options env (err i) i) (seq 0 n)
       ++ [Subscribed (Z.of_nat n)]
    /\ subscriptions events = map Z.of_nat (seq 0 (S n))
    /\ map (fun call => snd (fst call)) (hookCalls events) = map Some (seq 0 n)
    /\ List.length (hookCalls events) = n
    /\ List.length (delays events) = n.
Proof.
  intros Hfuel.
  assert (Hrun : retryCollectionSubscription options env fuel =
                 (flat_map (fun i => retriedAttempt options env (err i) i) (seq 0 n)
                  ++ [Subscribed (Z.of_nat n)],
                  Exhausted (err n))).
  { unfold retryCollectionSubscription, initial.
    replace fuel with (S n + (fuel - S n))%nat by lia.
    change (-1)%Z with (Z.of_nat 0 - 1)%Z.
    now apply run_before_init. }
  eexists. split; [exact Hrun|].
  rewrite Hrun. split; [reflexivity|]. split; [reflexivity|].
  split; [|split; [|split]].
  - rewrite subscriptions_retried, seq_S, map_app. reflexivity.
  - apply hookCalls_retried.
  - rewrite <- (length_map (fun call => snd (fst call))), hookCalls_retried.
    now rewrite length_map, length_seq.
  - apply delays_retried.
Qed.
End Budget.

(** ** Failures after a batch, and a hook that throws: claims C5, C8, C10 *)

Section Retrying.
Context {Key Value Revision : Type} `{KeyEq Key}.

Variable options : RetryCollectionSubscriptionOptions Key Value Revision.
Variable env : Environment Key Value.

Implicit Types st : JsMap.t (K := Key) (V := Revision).
Implicit Types ls : LoopState Key Revision.

(** The [for await] only yields. *)
Lemma forAwait_yields outerCount pending ending : forall innerCount st attempt,
  Forall (fun e => exists batch, e = Yielded batch)
    (fst (fst (fst (forAwait options outerCount innerCount pending ending st attempt)))).
Proof.
  induction pending as [|updates rest IH]; intros innerCount st attempt.
  - constructor.
  - cbn [forAwait].
    destruct (handleUpdates options outerCount (innerCount + 1) updates st)
      as [st' [e|batch]]; [constructor|].
    specialize (IH (innerCount + 1)%Z st' None).
    destruct (forAwait options outerCount (innerCount + 1) rest ending st' None)
      as [[[events st''] attempt'] result].
    constructor; [now exists batch | exact IH].
Qed.

Lemma yields_only (events : list (Event Key Value)) :
  Forall (fun e => exists batch, e = Yielded batch) events ->
  subscriptions events = [] /\ hookCalls events = [] /\ delays events = [].
Proof.
  induction 1 as [|e events [batch ->] _ (IH1 & IH2 & IH3)]; [now repeat split|].
  unfold subscriptions, hookCalls, delays in *. simpl. now repeat split.
Qed.

(** Every iteration starts by subscribing. *)
Lemma run_subscribes_first fuel ls :
  exists rest,
    fst (run options env (S fuel) ls) = Subscribed (outerCount ls + 1) :: rest.
Proof.
  cbn [run]. unfold iteration.
  destruct (forAwait options (outerCount ls + 1) (-1) _ _ _ _)
    as [[[events st'] attempt'] [|e|]].
  - now eexists.
  - destruct (catchBlock options env (outerCount ls + 1) e attempt')
      as [events' [outcome|attempt'']].
    + now eexists.
    + destruct (run options env fuel _) as [events'' outcome]. now eexists.
  - now eexists.
Qed.

(** C5.  Once a batch has been received [attempt] is unset.  When the [try]
    block then throws a non-cancellation error [e], as it does when the
    source fails, a hook that returns is called with [(e, undefined,
    undefined)], [attempt] becomes 0, and the next thing the generator does
    is subscribe again: it waits for no delay. *)
Theorem failure_after_batch_retries_at_once ls first more hook events st'
    attempt' e :
  let oc := (outerCount ls + 1)%Z in
  batches (subscribe env oc) = first :: more ->
  forAwait options oc (-1) (first :: more) (ending (subscribe env oc))
           (state ls) (attempt ls)
  = (events, st', attempt', TryThrows e) ->
  isAbortError e = false ->
  onError options = Some hook ->
  hook oc e None None = None ->
  attempt' = None
  /\ iteration options env ls
     = (Subscribed oc :: events ++ [OnErrorCalled e None None],
        inr (mkLoopState st' (Some 0%nat) oc))
  /\ delays (Subscribed oc :: events ++ [OnErrorCalled e None None]) = []
  /\ forall fuel,
       exists rest,
         fst (run options env (S (S fuel)) ls)
         = Subscribed oc :: events
           ++ [OnErrorCalled e None None]
           ++ Subscribed (oc + 1) :: rest.
Proof.
  intros oc Hbatches Hfor He Hhook Hreturns.
  assert (Hatt : attempt' = None).
  { pose proof (forAwait_attempt options oc (first :: more)
                  (ending (subscribe env oc)) (-1) (state ls) (attempt ls)) as A.
    rewrite Hfor in A. exact A. }
  assert (Hiter : iteration options env ls
                  = (Subscribed oc :: events ++ [OnErrorCalled e None None],
                     inr (mkLoopState st' (Some 0%nat) oc))).
  { unfold iteration. fold oc. rewrite Hbatches, Hfor, Hatt.
    unfold catchBlock, callOnError. rewrite He, Hhook, Hreturns. reflexivity. }
  split; [exact Hatt|]. split; [exact Hiter|]. split.
  - pose proof (forAwait_yields oc (first :: more)
                  (ending (subscribe env oc)) (-1) (state ls) (attempt ls)) as Y.
    rewrite Hfor in Y. cbn [fst] in Y. apply yields_only in Y as (_ & _ & Y).
    unfold delays in *. cbn [flat_map app]. rewrite flat_map_app, Y. reflexivity.
  - intros fuel. erewrite run_continues by exact Hiter. cbn [fst].
    destruct (run_subscribes_first fuel (mkLoopState st' (Some 0%nat) oc))
      as [rest ->].
    exists rest. cbn [outerCount app]. now rewrite <- app_assoc.
Qed.

(** C8.  When the [try] block throws a non-cancellation error [e] and the
    hook, called with [(e, undefined, undefined)] after a batch or with
    [(e, attempt, delayMs)] before any batch and within the budget, throws
    [raised]: the run ends there.  The consumer receives [raised]; the source
    is not subscribed again and no delay is waited for. *)
Theorem raising_hook_ends_the_run ls hook events st' attempt' e raised :
  let oc := (outerCount ls + 1)%Z in
  let delay := option_map (fun n => delayMs options n (random env oc)) attempt' in
  forAwait options oc (-1) (batches (subscribe env oc)) (ending (subscribe env oc))
           (state ls) (attempt ls)
  = (events, st', attempt', TryThrows e) ->
  isAbortError e = false ->
  match attempt' with
  | Some n => budgetExhausted options n = false
  | None => True
  end ->
  onError options = Some hook ->
  hook oc e attempt' delay = Some raised ->
  forall fuel,
    run options env (S fuel) ls
    = (Subscribed oc :: events ++ [OnErrorCalled e attempt' delay], HookRaised raised)
    /\ rejection (snd (run options env (S fuel) ls)) = Some raised
    /\ subscriptions (fst (run options env (S fuel) ls)) = [oc]
    /\ delays (fst (run options env (S fuel) ls)) = [].
Proof.
  intros oc delay Hfor He Hbudget Hhook Hraises fuel.
  assert (Hrun : run options env (S fuel) ls
                 = (Subscribed oc :: events ++ [OnErrorCalled e attempt' delay],
                    HookRaised raised)).
  { apply run_ends. unfold iteration. fold oc. rewrite Hfor.
    unfold catchBlock, callOnError. rewrite He, Hhook.
    destruct attempt' as [n|]; cbn [option_map] in *.
    - rewrite Hbudget. fold oc. unfold delay in Hraises. cbn [option_map] in Hraises.
      rewrite Hraises. reflexivity.
    - unfold delay in Hraises. cbn [option_map] in Hraises.
      rewrite Hraises. reflexivity. }
  rewrite Hrun. split; [reflexivity|]. split; [reflexivity|].
  pose proof (forAwait_yields oc (batches (subscribe env oc))
                (ending (subscribe env oc)) (-1) (state ls) (attempt ls)) as Y.
  rewrite Hfor in Y. cbn [fst] in Y. apply yields_only in Y as (Y1 & _ & Y3).
  unfold subscriptions, delays in *. cbn [fst flat_map app].
  rewrite !flat_map_app, Y1, Y3. split; reflexivity.
Qed.

(** One iteration whose subscription delivers a batch and then fails is
    followed by another. *)
Lemma iteration_after_batch ls e :
  let oc := (outerCount ls + 1)%Z in
  batches (subscribe env oc) <> [] ->
  ending (subscribe env oc) = Throws e ->
  isAbortError e = false ->
  (forall hook, onError options = Some hook ->
                forall e', hook oc e' None None = None) ->
  exists events st',
    iteration options env ls = (events, inr (mkLoopState st' (Some 0%nat) oc))
    /\ subscriptions events = [oc].
Proof.
  intros oc Hbatches Hending He Hhook.
  unfold iteration. fold oc. rewrite Hending.
  pose proof (forAwait_attempt options oc (batches (subscribe env oc)) (Throws e)
                (-1) (state ls) (attempt ls)) as A.
  pose proof (forAwait_yields oc (batches (subscribe env oc)) (Throws e)
                (-1) (state ls) (attempt ls)) as Y.
  destruct (forAwait_throws options oc e (batches (subscribe env oc))
              (-1) (state ls) (attempt ls) He) as (e' & R & He').
  destruct (forAwait options oc (-1) (batches (subscribe env oc)) (Throws e)
              (state ls) (attempt ls)) as [[[events st'] attempt'] result].
  cbn [fst snd] in *. subst result.
  destruct (batches (subscribe env oc)); [contradiction|]. subst attempt'.
  apply yields_only in Y as (Y & _ & _).
  unfold catchBlock, callOnError. rewrite He'.
  destruct (onError options) as [hook|] eqn:Eh.
  - rewrite (Hhook hook eq_refl). eexists _, st'. split; [reflexivity|].
    unfold subscriptions in *. cbn [flat_map app]. now rewrite flat_map_app, Y.
  - eexists _, st'. split; [reflexivity|].
    unfold subscriptions in *. cbn [flat_map app]. now rewrite flat_map_app, Y.
Qed.

Lemma run_after_batches
    (Hsource : forall i, (0 <= i)%Z ->
       batches (subscribe env i) <> []
       /\ exists e, ending (subscribe env i) = Throws e /\ isAbortError e = false)
    (Hhook : forall hook, onError options = Some hook ->
       forall i e, hook i e None None = None)
    (fuel : nat) : forall ls,
  (0 <= outerCount ls + 1)%Z ->
  exists events ls',
    run options env fuel ls = (events, Running ls')
    /\ subscriptions events
       = map (fun i => (outerCount ls + 1 + Z.of_nat i)%Z) (seq 0 fuel)
    /\ outerCount ls' = (outerCount ls + Z.of_nat fuel)%Z.
Proof.
  induction fuel as [|fuel IH]; intros ls Hoc.
  - exists [], ls. cbn. split; [reflexivity|]. split; [reflexivity | lia].
  - destruct (Hsource _ Hoc) as (Hb & e & Hend & He).
    destruct (iteration_after_batch ls Hb Hend He) as (events & st' & Hiter & Hsubs).
    { intros hook Eh e'. now apply Hhook. }
    destruct (IH (mkLoopState st' (Some 0%nat) (outerCount ls + 1))) as
      (events' & ls' & Hrun & Hsubs' & Hoc').
    { cbn [outerCount]. lia. }
    exists (events ++ events'), ls'.
    erewrite run_continues by exact Hiter. rewrite Hrun. cbn [fst snd].
    split; [reflexivity|]. split.
    + unfold subscriptions in *. rewrite flat_map_app, Hsubs, Hsubs'.
      cbn [outerCount seq map app]. rewrite Z.add_0_r. f_equal.
      rewrite <- seq_shift, map_map. apply map_ext. intros i. lia.
    + rewrite Hoc'. cbn [outerCount]. lia.
Qed.

(** C10.  Whatever [maxAttempts] is, in particular for every finite
    [maxAttempts >= 1]: when every subscription delivers at least one batch
    before it fails with a non-cancellation error (and the hook returns), the
    run is never ended by the budget, nor by anything else.  After any
    number [fuel] of iterations the generator is still looping and has
    subscribed [fuel] times, so the number of subscriptions has no bound. *)
Theorem budget_only_counts_failures_before_the_first_batch :
  (forall i, (0 <= i)%Z ->
     batches (subscribe env i) <> []
     /\ exists e, ending (subscribe env i) = Throws e /\ isAbortError e = false) ->
  (forall hook, onError options = Some hook ->
     forall i e, hook i e None None = None) ->
  forall fuel,
    exists events ls,
      retryCollectionSubscription options env fuel = (events, Running ls)
      /\ (forall e, snd (retryCollectionSubscription options env fuel) <> Exhausted e)
      /\ subscriptions events = map Z.of_nat (seq 0 fuel)
      /\ List.length (subscriptions events) = fuel.
Proof.
  intros Hsource Hhook fuel.
  destruct (run_after_batches Hsource Hhook fuel initial)
    as (events & ls & Hrun & Hsubs & _); [cbn; lia|].
  exists events, ls. unfold retryCollectionSubscription. rewrite Hrun.
  split; [reflexivity|]. split; [discriminate|].
  cbn [initial outerCount] in Hsubs.
  assert (Hs : subscriptions events = map Z.of_nat (seq 0 fuel)).
  { rewrite Hsubs. apply map_ext. intros i. lia. }
  split; [exact Hs|]. now rewrite Hs, length_map, length_seq.
Qed.
End Retrying.

(** ** State and the consumer, batch by batch *)

Section InStep.
Context {Key Value Revision : Type} `{KeyEq Key}.

Variable options : RetryCollectionSubscriptionOptions Key Value Revision.

Implicit Types st old : JsMap.t (K := Key) (V := Revision).
Implicit Types items : list (Key * Value).
Implicit Types held : list Key.

Lemma consumerApply_In held (u : CollectionSubscriptionUpdate Key Value) k :
  In k (consumerApply held u) <->
  match value u with
  | Some _ => In k held \/ k = key u
  | None => In k held /\ k <> key u
  end.
Proof.
  unfold consumerApply. destruct (value u).
  - destruct (occurs (key u) held) eqn:E.
    + apply occurs_In in E. split; [tauto | intros [i| ->]; assumption].
    + rewrite in_app_iff. simpl. intuition congruence.
  - rewrite filter_In, negb_true_iff, occurs_not_In. simpl. intuition congruence.
Qed.

Lemma consumer_upserts items : forall held k,
  In k (fold_left consumerApply (map present items) held) <->
  In k held \/ In k (map fst items).
Proof.
  induction items as [|item items IH]; intros held k; simpl; [tauto|].
  rewrite IH, consumerApply_In. simpl. intuition congruence.
Qed.

Lemma consumer_removals (ks : list Key) : forall held k,
  In k (fold_left consumerApply (map (absent (Value := Value)) ks) held) <->
  In k held /\ ~ In k ks.
Proof.
  induction ks as [|k0 ks IH]; intros held k; simpl; [tauto|].
  rewrite IH, consumerApply_In. simpl. intuition congruence.
Qed.

Lemma applyLoop_in_step updates : forall st held st',
  applyLoop options updates st = (st', None) ->
  sameKeys (JsMap.keys st) held ->
  sameKeys (JsMap.keys st') (fold_left consumerApply updates held).
Proof.
  induction updates as [|u updates IH]; intros st held st'; simpl.
  - intros [= <-]. tauto.
  - destruct (value u) as [v|] eqn:Ev.
    + intros Hl Hs. apply (IH _ _ _ Hl). intros k.
      rewrite consumerApply_In, Ev, keys_set.
      destruct (JsMap.has (key u) st) eqn:Eh.
      * apply has_In in Eh. rewrite (Hs k). split; [tauto|].
        intros [i| ->]; [assumption | now apply Hs].
      * rewrite in_app_iff, (Hs k). simpl. intuition congruence.
    + destruct (JsMap.has (key u) st); simpl; [|discriminate].
      intros Hl Hs. apply (IH _ _ _ Hl). intros k.
      rewrite consumerApply_In, Ev, keys_remove, filter_In, negb_true_iff,
        occurs_not_In, (Hs k).
      simpl. intuition congruence.
Qed.

Lemma diffLoop_all_present updates : forall st ns d st' ns' d',
  diffLoop options updates st ns d = (st', inr (ns', d')) ->
  Forall (fun u => value u <> None) updates.
Proof.
  induction updates as [|u updates IH]; intros st ns d st' ns' d'; simpl.
  - constructor.
  - destruct (value u) eqn:Ev; [|discriminate].
    intros Hl. constructor; [congruence | eapply IH, Hl].
Qed.

Lemma changedItems_subset old items : forall earlier item,
  In item (changedItems options old earlier items) -> In item items.
Proof.
  induction items as [|i items IH]; intros earlier item; simpl; [tauto|].
  destruct (differs options old i || occurs (fst i) earlier); simpl.
  - intros [e|Hi]; [now left | right; eapply IH, Hi].
  - intros Hi. right. eapply IH, Hi.
Qed.

Lemma changedItems_new_key old items : forall earlier item,
  In item items -> JsMap.get (fst item) old = None ->
  In item (changedItems options old earlier items).
Proof.
  induction items as [|i items IH]; intros earlier item; simpl; [tauto|].
  intros [->|Hi] Hg.
  - unfold differs. rewrite Hg. simpl. now left.
  - destruct (differs options old i || occurs (fst i) earlier); simpl; auto.
Qed.

Lemma firstOccurrences_In (ks : list Key) : forall earlier k,
  In k (firstOccurrences earlier ks) <-> In k ks /\ ~ In k earlier.
Proof.
  induction ks as [|k0 ks IH]; intros earlier k; simpl; [tauto|].
  destruct (occurs k0 earlier) eqn:E.
  - apply occurs_In in E. rewrite IH. intuition congruence.
  - apply occurs_not_In in E. simpl. rewrite IH, in_app_iff. simpl.
    destruct (key_eq_dec k0 k) as [->|n]; intuition congruence.
Qed.

Lemma diffBranch_in_step updates st held st' batch :
  diffBranch options updates st = (st', inr batch) ->
  sameKeys (JsMap.keys st) held ->
  sameKeys (JsMap.keys st') (fold_left consumerApply batch held).
Proof.
  intros Hd Hs.
  assert (Hp : exists items, updates = map present items).
  { unfold diffBranch in Hd.
    destruct (diffLoop options updates st JsMap.empty [])
      as [st0 [e|[ns d]]] eqn:El; [discriminate|].
    eapply all_present_items, diffLoop_all_present, El. }
  destruct Hp as [items ->].
  rewrite diffBranch_present in Hd. injection Hd as <- <-.
  intros k. rewrite fold_left_app, consumer_removals, consumer_upserts.
  rewrite keys_setItems. cbn [JsMap.keys JsMap.empty map app].
  rewrite firstOccurrences_In.
  unfold vanished. rewrite filter_In, negb_true_iff, occurs_not_In, <- (Hs k).
  split.
  - intros [Hi _]. split.
    + destruct (JsMap.get k st) eqn:Eg.
      * left. apply has_In. unfold JsMap.has. now rewrite Eg.
      * right. apply in_map_iff in Hi as (item & <- & Hi).
        apply in_map, changedItems_new_key; assumption.
    + tauto.
  - intros [[Hk|Hc] Hv].
    + split; [|tauto]. destruct (in_dec key_eq_dec k (map fst items)); tauto.
    + split; [|tauto]. apply in_map_iff in Hc as (item & <- & Hc).
      apply in_map. eapply changedItems_subset, Hc.
Qed.

(** A batch that is handled without a throw leaves State and the consumer
    with the same keys. *)
Lemma handleUpdates_in_step outerCount innerCount updates st held st' batch :
  handleUpdates options outerCount innerCount updates st = (st', inr batch) ->
  sameKeys (JsMap.keys st) held ->
  sameKeys (JsMap.keys st') (fold_left consumerApply batch held).
Proof.
  unfold handleUpdates.
  destruct ((innerCount =? 0)%Z && negb (outerCount =? 0)%Z).
  - apply diffBranch_in_step.
  - unfold applyBranch.
    destruct (applyLoop options updates st) as [st0 [e|]] eqn:Ea; [discriminate|].
    intros [= <- <-]. eapply applyLoop_in_step, Ea.
Qed.

(** So does a [for await] that ends otherwise than by a protocol violation. *)
Lemma forAwait_in_step outerCount pending ending :
  forall innerCount st attempt held events st' attempt' result,
  forAwait options outerCount innerCount pending ending st attempt
  = (events, st', attempt', result) ->
  (forall e, result = TryThrows e -> isProtocolViolation e = false) ->
  sameKeys (JsMap.keys st) held ->
  sameKeys (JsMap.keys st') (fold_left consumerReceive events held).
Proof.
  induction pending as [|updates rest IH];
    intros innerCount st attempt held events st' attempt' result.
  - intros [= <- <- _ _] _ Hs. exact Hs.
  - cbn [forAwait].
    destruct (handleUpdates options outerCount (innerCount + 1) updates st)
      as [st0 [e|batch]] eqn:Eh.
    + intros [= _ _ _ <-] Hv _.
      apply handleUpdates_error in Eh. specialize (Hv e eq_refl). congruence.
    + destruct (forAwait options outerCount (innerCount + 1) rest ending st0 None)
        as [[[events0 st1] attempt1] result1] eqn:Ef.
      intros [= <- <- _ <-] Hv Hs. cbn [fold_left consumerReceive].
      eapply IH; [exact Ef | exact Hv |].
      eapply handleUpdates_in_step; [exact Eh | exact Hs].
Qed.

Lemma catchBlock_silent env outerCount e attempt held :
  fold_left consumerReceive (fst (catchBlock options env outerCount e attempt)) held
  = held.
Proof.
  unfold catchBlock, callOnError.
  destruct (isAbortError e); [reflexivity|].
  destruct attempt as [n|].
  - destruct (budgetExhausted options n); [reflexivity|].
    destruct (onError options) as [hook|].
    + destruct (hook _ _ _ _); [reflexivity|].
      now destruct (delayAborted env outerCount).
    + now destruct (delayAborted env outerCount).
  - destruct (onError options) as [hook|]; [|reflexivity].
    now destruct (hook _ _ _ _).
Qed.

(** X12.  An iteration whose [try] block does not throw a protocol violation
    keeps State and the consumer in step: when State's keys were the keys
    the consumer holds before the iteration, they are again after it,
    whatever was yielded and however the subscription failed. *)
Theorem iteration_in_step env ls held events ls' :
  iteration options env ls = (events, inr ls') ->
  (forall e,
     snd (forAwait options (outerCount ls + 1) (-1)
            (batches (subscribe env (outerCount ls + 1)))
            (ending (subscribe env (outerCount ls + 1)))
            (state ls) (attempt ls))
     = TryThrows e ->
     isProtocolViolation e = false) ->
  sameKeys (JsMap.keys (state ls)) held ->
  sameKeys (JsMap.keys (state ls')) (fold_left consumerReceive events held).
Proof.
  unfold iteration.
  destruct (forAwait options (outerCount ls + 1) (-1) _ _ _ _)
    as [[[events0 st'] attempt'] result] eqn:Ef.
  cbn [snd]. intros Hi Hv Hs.
  assert (Hstep : sameKeys (JsMap.keys st') (fold_left consumerReceive events0 held))
    by (eapply forAwait_in_step; [exact Ef | exact Hv | exact Hs]).
  destruct result as [|e|]; try discriminate.
  pose proof (catchBlock_silent env (outerCount ls + 1) e attempt'
                (fold_left consumerReceive events0 held)) as Hc.
  destruct (catchBlock options env (outerCount ls + 1) e attempt')
    as [events1 [outcome|attempt'']]; [discriminate|].
  injection Hi as <- <-. cbn [fst state] in *.
  cbn [fold_left consumerReceive]. now rewrite fold_left_app, Hc.
Qed.
End InStep.

(** * The rest of the generator *)

(** ** How a run ends *)

Section Endings.
Context {Key Value Revision : Type} `{KeyEq Key}.

Variable options : RetryCollectionSubscriptionOptions Key Value Revision.
Variable env : Environment Key Value.

Implicit Types st : JsMap.t (K := Key) (V := Revision).
Implicit Types ls : LoopState Key Revision.

(** What an iteration adds to the trace besides its [Subscribed] event and
    the events of the [catch] block are yields. *)
Lemma forAwait_trace outerCount pending ending innerCount st attempt :
  let events :=
    fst (fst (fst (forAwait options outerCount innerCount pending ending st attempt))) in
  subscriptions events = [] /\ hookCalls events = [] /\ delays events = [].
Proof.
  apply yields_only, forAwait_yields.
Qed.

(** The [for await] yields one batch for each batch it handles, and handles
    them all unless a protocol violation stops it. *)
Lemma forAwait_length outerCount pending ending :
  forall innerCount st attempt events st' attempt' result,
  forAwait options outerCount innerCount pending ending st attempt
  = (events, st', attempt', result) ->
  (forall e, result = TryThrows e -> isProtocolViolation e = false) ->
  List.length events = List.length pending.
Proof.
  induction pending as [|updates rest IH];
    intros innerCount st attempt events st' attempt' result.
  - now intros [= <- _ _ _].
  - cbn [forAwait].
    destruct (handleUpdates options outerCount (innerCount + 1) updates st)
      as [st0 [e|batch]] eqn:Eh.
    + intros [= _ _ _ <-] Hv.
      apply handleUpdates_error in Eh. specialize (Hv e eq_refl). congruence.
    + destruct (forAwait options outerCount (innerCount + 1) rest ending st0 None)
        as [[[events0 st1] attempt1] result1] eqn:Ef.
      intros [= <- _ _ <-] Hv. cbn [List.length]. f_equal.
      eapply IH; [exact Ef | exact Hv].
Qed.

(** X1.  A cancellation error thrown in the [try] block, before or after a
    batch and whatever the budget, ends the run with that very error: the
    hook is not called, no delay is waited for and the source is not
    subscribed again. *)
Theorem cancellation_ends_the_run ls events st' attempt' e :
  let oc := (outerCount ls + 1)%Z in
  forAwait options oc (-1) (batches (subscribe env oc)) (ending (subscribe env oc))
           (state ls) (attempt ls)
  = (events, st', attempt', TryThrows e) ->
  isAbortError e = true ->
  forall fuel,
    run options env (S fuel) ls = (Subscribed oc :: events, Cancelled e)
    /\ rejection (snd (run options env (S fuel) ls)) = Some e
    /\ hookCalls (fst (run options env (S fuel) ls)) = []
    /\ delays (fst (run options env (S fuel) ls)) = []
    /\ subscriptions (fst (run options env (S fuel) ls)) = [oc].
Proof.
  intros oc Hfor He fuel.
  assert (Hrun : run options env (S fuel) ls = (Subscribed oc :: events, Cancelled e)).
  { apply run_ends. unfold iteration. fold oc. rewrite Hfor.
    unfold catchBlock. rewrite He. now rewrite app_nil_r. }
  rewrite Hrun. split; [reflexivity|]. split; [reflexivity|].
  pose proof (forAwait_trace oc (batches (subscribe env oc))
                (ending (subscribe env oc)) (-1) (state ls) (attempt ls)) as T.
  rewrite Hfor in T. cbn [fst] in T. destruct T as (T1 & T2 & T3).
  unfold subscriptions, hookCalls, delays in *. cbn [fst flat_map app].
  now rewrite T1, T2, T3.
Qed.

(** X2.  When the source completes and no batch was a protocol violation,
    the run returns: every batch of the subscription has been answered by
    one yield, the consumer gets no error, the hook is not called and the
    source is not subscribed again. *)
Theorem completion_ends_the_run ls events st' attempt' :
  let oc := (outerCount ls + 1)%Z in
  forAwait options oc (-1) (batches (subscribe env oc)) (ending (subscribe env oc))
           (state ls) (attempt ls)
  = (events, st', attempt', TryReturns) ->
  forall fuel,
    run options env (S fuel) ls = (Subscribed oc :: events, Returned)
    /\ rejection (snd (run options env (S fuel) ls)) = None
    /\ List.length events = List.length (batches (subscribe env oc))
    /\ hookCalls (fst (run options env (S fuel) ls)) = []
    /\ subscriptions (fst (run options env (S fuel) ls)) = [oc].
Proof.
  intros oc Hfor fuel.
  assert (Hrun : run options env (S fuel) ls = (Subscribed oc :: events, Returned)).
  { apply run_ends. unfold iteration. fold oc. now rewrite Hfor. }
  rewrite Hrun. split; [reflexivity|]. split; [reflexivity|]. split.
  - eapply forAwait_length; [exact Hfor | discriminate].
  - pose proof (forAwait_trace oc (batches (subscribe env oc))
                  (ending (subscribe env oc)) (-1) (state ls) (attempt ls)) as T.
    rewrite Hfor in T. cbn [fst] in T. destruct T as (T1 & T2 & _).
    unfold subscriptions, hookCalls in *. cbn [fst flat_map app].
    now rewrite T1, T2.
Qed.

(** X3.  A failure before any batch, within the budget, with a hook that
    returns: when the signal aborts during the backoff delay the run ends
    with the cancellation error, after the hook was called, and the source
    is not subscribed again. *)
Theorem abort_during_the_delay_ends_the_run ls (n : nat) e :
  let oc := (outerCount ls + 1)%Z in
  let delay := delayMs options n (random env oc) in
  attempt ls = Some n ->
  subscribe env oc = mkSubscription [] (Throws e) ->
  isAbortError e = false ->
  budgetExhausted options n = false ->
  (forall hook, onError options = Some hook ->
                hook oc e (Some n) (Some delay) = None) ->
  delayAborted env oc = true ->
  forall fuel,
    snd (run options env (S fuel) ls) = DelayCancelled
    /\ rejection (snd (run options env (S fuel) ls)) = Some AbortError
    /\ subscriptions (fst (run options env (S fuel) ls)) = [oc]
    /\ delays (fst (run options env (S fuel) ls)) = [delay]
    /\ (forall hook, onError options = Some hook ->
          hookCalls (fst (run options env (S fuel) ls)) = [(e, Some n, Some delay)]).
Proof.
  intros oc delay Hatt Hsub He Hbudget Hhook Habort fuel.
  assert (Hiter : iteration options env ls
                  = (Subscribed oc
                       :: fst (callOnError options oc e (Some n) (Some delay))
                       ++ [Delayed delay],
                     inl DelayCancelled)).
  { unfold iteration. fold oc. rewrite Hsub. cbn [batches ending forAwait].
    rewrite Hatt. unfold catchBlock. rewrite He, Hbudget. fold delay.
    unfold callOnError. destruct (onError options) as [hook|] eqn:Eh.
    - rewrite (Hhook hook eq_refl), Habort. reflexivity.
    - rewrite Habort. reflexivity. }
  rewrite (run_ends options env fuel ls Hiter). cbn [fst snd].
  split; [reflexivity|]. split; [reflexivity|].
  unfold callOnError, subscriptions, delays, hookCalls.
  destruct (onError options) as [hook|]; cbn; repeat split; try reflexivity;
    intros hook' [=].
Qed.
End Endings.

(** ** What is yielded and what the hook is told *)

Section Traces.
Context {Key Value Revision : Type} `{KeyEq Key}.

Variable options : RetryCollectionSubscriptionOptions Key Value Revision.
Variable env : Environment Key Value.

Implicit Types st : JsMap.t (K := Key) (V := Revision).
Implicit Types ls : LoopState Key Revision.

(** Past the first batch of a resubscription every batch goes through the
    branch of live updates. *)
Lemma forAwait_live outerCount pending ending :
  forall innerCount st attempt events st' attempt' result,
  outerCount = 0%Z \/ (0 <= innerCount)%Z ->
  forAwait options outerCount innerCount pending ending st attempt
  = (events, st', attempt', result) ->
  (forall e, result = TryThrows e -> isProtocolViolation e = false) ->
  events = map Yielded pending.
Proof.
  induction pending as [|updates rest IH];
    intros innerCount st attempt events st' attempt' result Hlive.
  - now intros [= <- _ _ _].
  - cbn [forAwait]. unfold handleUpdates.
    assert (((innerCount + 1 =? 0)%Z && negb (outerCount =? 0)%Z) = false) as ->.
    { destruct Hlive as [->|Hi]; [apply andb_false_r|].
      destruct (Z.eqb_spec (innerCount + 1) 0) as [E|E]; [exfalso; lia | reflexivity]. }
    unfold applyBranch.
    destruct (applyLoop options updates st) as [st0 [e|]] eqn:Ea.
    + intros [= _ _ _ <-] Hv.
      apply applyLoop_error in Ea. specialize (Hv e eq_refl). congruence.
    + destruct (forAwait options outerCount (innerCount + 1) rest ending st0 None)
        as [[[events0 st1] attempt1] result1] eqn:Ef.
      intros [= <- _ _ <-] Hv. cbn [map]. f_equal.
      eapply IH; [|exact Ef | exact Hv].
      destruct Hlive as [Ho|Hi]; [left; exact Ho | right; lia].
Qed.

(** X13.  Unless a protocol violation stops it, a subscription's batches are
    yielded one for one and unchanged, except the first batch of a
    resubscription, which is replaced by its diff against State. *)
Theorem batches_pass_through_unchanged outerCount pending ending st attempt
    events st' attempt' result :
  forAwait options outerCount (-1) pending ending st attempt
  = (events, st', attempt', result) ->
  (forall e, result = TryThrows e -> isProtocolViolation e = false) ->
  (outerCount = 0%Z -> events = map Yielded pending)
  /\ (outerCount <> 0%Z ->
      forall first rest, pending = first :: rest ->
      exists diff,
        snd (diffBranch options first st) = inr diff
        /\ events = Yielded diff :: map Yielded rest).
Proof.
  intros Hfor Hv. split.
  - intros Hoc. eapply forAwait_live; [left; exact Hoc | exact Hfor | exact Hv].
  - intros Hoc first rest ->. cbn [forAwait] in Hfor. unfold handleUpdates in Hfor.
    change (-1 + 1)%Z with 0%Z in Hfor.
    destruct (Z.eqb_spec outerCount 0); [contradiction|].
    cbn [Z.eqb andb negb] in Hfor.
    destruct (diffBranch options first st) as [st0 [e|diff]] eqn:Ed.
    + injection Hfor as _ _ _ <-.
      assert (Hp : isProtocolViolation e = true).
      { apply (handleUpdates_error options outerCount 0 first st (st' := st0)).
        unfold handleUpdates. destruct (Z.eqb_spec outerCount 0); [contradiction|].
        cbn [Z.eqb andb negb]. exact Ed. }
      specialize (Hv e eq_refl). congruence.
    + destruct (forAwait options outerCount 0 rest ending st0 None)
        as [[[events0 st1] attempt1] result1] eqn:Ef.
      injection Hfor as <- _ _ <-. exists diff. split; [reflexivity|]. f_equal.
      eapply forAwait_live; [|exact Ef | exact Hv]. right. lia.
Qed.

Lemma catchBlock_hookCalls outerCount e attempt :
  Forall (hookCallAllowed options) (hookCalls (fst (catchBlock options env outerCount e attempt))).
Proof.
  unfold catchBlock, callOnError.
  destruct (isAbortError e) eqn:He; [constructor|].
  destruct attempt as [n|].
  - destruct (budgetExhausted options n) eqn:Hb; [constructor|].
    destruct (onError options) as [hook|].
    + destruct (hook _ _ _ _).
      * repeat constructor; assumption.
      * destruct (delayAborted env outerCount); repeat constructor; assumption.
    + destruct (delayAborted env outerCount); constructor.
  - destruct (onError options) as [hook|]; [|constructor].
    destruct (hook _ _ _ _); repeat constructor; assumption.
Qed.

Lemma iteration_hookCalls ls :
  Forall (hookCallAllowed options) (hookCalls (fst (iteration options env ls))).
Proof.
  unfold iteration.
  pose proof (forAwait_trace options (outerCount ls + 1)
                (batches (subscribe env (outerCount ls + 1)))
                (ending (subscribe env (outerCount ls + 1)))
                (-1) (state ls) (attempt ls)) as (_ & T & _).
  destruct (forAwait options (outerCount ls + 1) (-1) _ _ _ _)
    as [[[events st'] attempt'] [|e|]]; cbn [fst] in T.
  - unfold hookCalls in *. cbn [fst flat_map app]. rewrite T. constructor.
  - pose proof (catchBlock_hookCalls (outerCount ls + 1) e attempt') as C.
    destruct (catchBlock options env (outerCount ls + 1) e attempt')
      as [events' [outcome|attempt'']]; cbn [fst] in *;
      unfold hookCalls in *; cbn [flat_map app]; rewrite flat_map_app, T; exact C.
  - unfold hookCalls in *. cbn [fst flat_map app]. rewrite T. constructor.
Qed.

(** X14.  In every run, whatever the source, the hook and the signal do: the
    hook is never called with a cancellation error, and its arguments are
    either [(error, undefined, undefined)] or [(error, attempt, delayMs)]
    with an attempt number the budget allows. *)
Theorem hook_calls_have_two_shapes (fuel : nat) : forall ls,
  Forall (hookCallAllowed options) (hookCalls (fst (run options env fuel ls))).
Proof.
  induction fuel as [|fuel IH]; intros ls; [constructor|].
  cbn [run]. pose proof (iteration_hookCalls ls) as I.
  destruct (iteration options env ls) as [events [outcome|ls']]; cbn [fst] in *.
  - exact I.
  - specialize (IH ls'). destruct (run options env fuel ls') as [events' outcome].
    cbn [fst] in *. unfold hookCalls in *. rewrite flat_map_app.
    apply Forall_app. split; assumption.
Qed.
End Traces.

(** ** Streaks of failures before any batch *)

Lemma flat_map_seq_shift {A : Type} (f : nat -> list A) (k : nat) : forall s,
  flat_map f (seq (S s) k) = flat_map (fun j => f (S j)) (seq s k).
Proof.
  induction k as [|k IH]; intros s; [reflexivity|].
  cbn [seq flat_map]. now rewrite IH.
Qed.

Section Streaks.
Context {Key Value Revision : Type} `{KeyEq Key}.

Variable options : RetryCollectionSubscriptionOptions Key Value Revision.
Variable env : Environment Key Value.

(** The streak starts after the subscription numbered [base]; its [j]-th
    subscription fails with [err j] before any batch. *)
Variable base : Z.
Variable err : nat -> Thrown Key.

Hypothesis source_fails :
  forall j : nat,
    subscribe env (base + 1 + Z.of_nat j) = mkSubscription [] (Throws (err j)).
Hypothesis not_cancelled : forall j, isAbortError (err j) = false.
Hypothesis hook_returns :
  forall hook, onError options = Some hook -> forall i e a d, hook i e a d = None.
Hypothesis delay_elapses : forall i, delayAborted env i = false.

Implicit Types st : JsMap.t (K := Key) (V := Revision).

Lemma iteration_in_streak st (a j : nat) :
  iteration options env (mkLoopState st (Some a) (base + Z.of_nat j)) =
  if budgetExhausted options a
  then ([Subscribed (base + 1 + Z.of_nat j)], inl (Exhausted (err j)))
  else (retriedAt options env (err j) a (base + 1 + Z.of_nat j),
        inr (mkLoopState st (Some (S a)) (base + Z.of_nat (S j)))).
Proof.
  unfold iteration. cbn [outerCount state attempt].
  replace (base + Z.of_nat j + 1)%Z with (base + 1 + Z.of_nat j)%Z by lia.
  rewrite source_fails. cbn [batches ending forAwait].
  unfold catchBlock. rewrite not_cancelled.
  destruct (budgetExhausted options a); [reflexivity|].
  unfold callOnError, retriedAt. rewrite delay_elapses.
  replace (base + Z.of_nat (S j))%Z with (base + 1 + Z.of_nat j)%Z by lia.
  pose proof hook_returns as Hr.
  destruct (onError options) as [hook|]; [|reflexivity].
  now rewrite (Hr hook eq_refl).
Qed.

Lemma run_in_streak st (k : nat) : forall a j : nat,
  (forall i, (i < k)%nat -> budgetExhausted options (a + i) = false) ->
  run options env k (mkLoopState st (Some a) (base + Z.of_nat j)) =
  (flat_map (fun i => retriedAt options env (err (j + i)) (a + i)
                        (base + 1 + Z.of_nat (j + i)))
            (seq 0 k),
   Running (mkLoopState st (Some (a + k)%nat) (base + Z.of_nat (j + k)))).
Proof.
  induction k as [|k IH]; intros a j Hb.
  - cbn. now rewrite !Nat.add_0_r.
  - erewrite run_continues.
    2:{ rewrite iteration_in_streak.
        specialize (Hb 0%nat ltac:(lia)). rewrite Nat.add_0_r in Hb.
        rewrite Hb. reflexivity. }
    rewrite (IH (S a) (S j)).
    2:{ intros i Hi. replace (S a + i)%nat with (a + S i)%nat by lia.
        apply Hb. lia. }
    cbn [fst snd seq flat_map]. rewrite !Nat.add_0_r, flat_map_seq_shift.
    f_equal.
    + f_equal. apply flat_map_ext. intros i.
      now replace (S j + i)%nat with (j + S i)%nat by lia;
          replace (S a + i)%nat with (a + S i)%nat by lia.
    + now replace (S a + k)%nat with (a + S k)%nat by lia;
          replace (S j + k)%nat with (j + S k)%nat by lia.
Qed.
End Streaks.

Section StreakClaims.
Context {Key Value Revision : Type} `{KeyEq Key}.

Variable options : RetryCollectionSubscriptionOptions Key Value Revision.
Variable env : Environment Key Value.

Implicit Types st : JsMap.t (K := Key) (V := Revision).
Implicit Types ls : LoopState Key Revision.

(** An iteration that ends the run does not leave it running. *)
Lemma iteration_ends ls events outcome :
  iteration options env ls = (events, inl outcome) ->
  forall ls', outcome <> Running ls'.
Proof.
  unfold iteration.
  destruct (forAwait options (outerCount ls + 1) (-1) _ _ _ _)
    as [[[events0 st'] attempt'] [|e|]];
    try (intros [= _ <-]; discriminate).
  unfold catchBlock, callOnError.
  destruct (isAbortError e); [intros [= _ <-]; discriminate|].
  destruct attempt' as [n|].
  - destruct (budgetExhausted options n); [intros [= _ <-]; discriminate|].
    destruct (onError options) as [hook|].
    + destruct (hook _ _ _ _); [intros [= _ <-]; discriminate|].
      destruct (delayAborted env _); [intros [= _ <-]; discriminate | discriminate].
    + destruct (delayAborted env _); [intros [= _ <-]; discriminate | discriminate].
  - destruct (onError options) as [hook|]; [|discriminate].
    destruct (hook _ _ _ _); [intros [= _ <-]; discriminate | discriminate].
Qed.

(** Running [k + m] iterations is running [k] and then, if the loop is still
    going, [m] more. *)
Lemma run_add (k m : nat) : forall ls,
  run options env (k + m) ls =
  match run options env k ls with
  | (events, Running ls') =>
      (events ++ fst (run options env m ls'), snd (run options env m ls'))
  | ended => ended
  end.
Proof.
  induction k as [|k IH]; intros ls.
  - cbn. now destruct (run options env m ls).
  - cbn [Nat.add run].
    pose proof (iteration_ends ls) as E.
    destruct (iteration options env ls) as [events [outcome|ls']].
    + specialize (E events outcome eq_refl).
      destruct outcome; try reflexivity. now contradiction (E ls0).
    + rewrite IH. destruct (run options env k ls') as [events' outcome].
      destruct outcome; try reflexivity.
      cbn [fst snd]. now rewrite app_assoc.
Qed.

Lemma retriedAt_trace (e : Thrown Key) (a : nat) (i : Z) :
  subscriptions (retriedAt options env e a i) = [i]
  /\ delays (retriedAt options env e a i) = [delayMs options a (random env i)].
Proof.
  unfold retriedAt. now destruct (onError options).
Qed.

Lemma streak_trace (f : nat -> Thrown Key) (g : nat -> nat) (h : nat -> Z)
    (l : list nat) :
  subscriptions (flat_map (fun i => retriedAt options env (f i) (g i) (h i)) l)
  = map h l
  /\ delays (flat_map (fun i => retriedAt options env (f i) (g i) (h i)) l)
     = map (fun i => delayMs options (g i) (random env (h i))) l.
Proof.
  unfold subscriptions, delays.
  induction l as [|i l [IH1 IH2]]; [now split|].
  cbn [flat_map map]. rewrite !flat_map_app, IH1, IH2.
  destruct (retriedAt_trace (f i) (g i) (h i)) as [T1 T2].
  unfold subscriptions, delays in T1, T2. now rewrite T1, T2.
Qed.

(** X4.  With the default [maxAttempts] (Infinity), a source that fails
    before any batch every time, a hook that returns and a signal that never
    aborts: the generator never gives up.  After any number [fuel] of
    iterations it has subscribed [fuel] times, has waited the delays of the
    attempts [0 .. fuel - 1], and goes on with [attempt = fuel]. *)
Theorem default_budget_never_gives_up (err : nat -> Thrown Key) :
  maxAttempts options = None ->
  (forall j : nat,
     subscribe env (Z.of_nat j) = mkSubscription [] (Throws (err j))) ->
  (forall j, isAbortError (err j) = false) ->
  (forall hook, onError options = Some hook ->
                forall i e a d, hook i e a d = None) ->
  (forall i, delayAborted env i = false) ->
  forall fuel,
    retryCollectionSubscription options env fuel
    = (flat_map (fun i => retriedAt options env (err i) i (Z.of_nat i)) (seq 0 fuel),
       Running (mkLoopState JsMap.empty (Some fuel) (Z.of_nat fuel - 1)))
    /\ subscriptions (fst (retryCollectionSubscription options env fuel))
       = map Z.of_nat (seq 0 fuel)
    /\ delays (fst (retryCollectionSubscription options env fuel))
       = map (fun i => delayMs options i (random env (Z.of_nat i))) (seq 0 fuel).
Proof.
  intros Hmax Hsrc Hna Hhook Hdelay fuel.
  assert (Hrun : retryCollectionSubscription options env fuel
                 = (flat_map (fun i => retriedAt options env (err i) i (Z.of_nat i))
                             (seq 0 fuel),
                    Running (mkLoopState JsMap.empty (Some fuel) (Z.of_nat fuel - 1)))).
  { assert (Hsrc' : forall j : nat,
               subscribe env (-1 + 1 + Z.of_nat j)
               = mkSubscription [] (Throws (err j))).
    { intros j. rewrite <- Hsrc. f_equal. }
    unfold retryCollectionSubscription, initial.
    change (-1)%Z with (-1 + Z.of_nat 0)%Z at 1.
    rewrite (run_in_streak options env (-1) err Hsrc' Hna Hhook Hdelay).
    - f_equal. f_equal. f_equal. lia.
    - intros i _. unfold budgetExhausted. now rewrite Hmax. }
  rewrite Hrun. split; [reflexivity|]. cbn [fst].
  destruct (streak_trace err (fun i => i) Z.of_nat (seq 0 fuel)) as [T1 T2].
  split; assumption.
Qed.

(** X16.  The budget counts a streak of failures from the attempt number the
    streak starts with, at any point of a run: from [attempt = a <= n =
    maxAttempts], when the next subscriptions all fail before any batch, the
    source is retried exactly [n - a] more times and the failure after that
    is thrown. *)
Theorem budget_counts_the_current_streak (base : Z) (err : nat -> Thrown Key)
    (n a : nat) st :
  maxAttempts options = Some (inject_Z (Z.of_nat n)) ->
  (a <= n)%nat ->
  (forall j : nat,
     subscribe env (base + 1 + Z.of_nat j) = mkSubscription [] (Throws (err j))) ->
  (forall j, isAbortError (err j) = false) ->
  (forall hook, onError options = Some hook ->
                forall i e a d, hook i e a d = None) ->
  (forall i, delayAborted env i = false) ->
  forall fuel, (n - a < fuel)%nat ->
    run options env fuel (mkLoopState st (Some a) base)
    = (flat_map (fun i => retriedAt options env (err i) (a + i)
                            (base + 1 + Z.of_nat i))
                (seq 0 (n - a))
       ++ [Subscribed (base + 1 + Z.of_nat (n - a))],
       Exhausted (err (n - a)%nat))
    /\ List.length (delays (fst (run options env fuel (mkLoopState st (Some a) base))))
       = (n - a)%nat.
Proof.
  intros Hmax Han Hsrc Hna Hhook Hdelay fuel Hfuel.
  assert (Hrun : run options env fuel (mkLoopState st (Some a) base)
                 = (flat_map (fun i => retriedAt options env (err i) (a + i)
                                         (base + 1 + Z.of_nat i))
                             (seq 0 (n - a))
                    ++ [Subscribed (base + 1 + Z.of_nat (n - a))],
                    Exhausted (err (n - a)%nat))).
  { replace fuel with ((n - a) + S (fuel - S (n - a)))%nat by lia.
    rewrite run_add.
    replace base with (base + Z.of_nat 0)%Z at 1 by lia.
    rewrite (run_in_streak options env base err Hsrc Hna Hhook Hdelay).
    - erewrite run_ends.
      2:{ rewrite (iteration_in_streak options env base err Hsrc Hna Hhook Hdelay).
          rewrite budgetExhausted_nat with (n := n) by exact Hmax.
          replace (a + (n - a))%nat with n by lia.
          rewrite Nat.leb_refl. reflexivity. }
      cbn [fst snd Nat.add]. reflexivity.
    - intros i Hi. rewrite budgetExhausted_nat with (n := n) by exact Hmax.
      apply Nat.leb_gt. lia. }
  rewrite Hrun. split; [reflexivity|]. cbn [fst].
  destruct (streak_trace err (fun i => (a + i)%nat)
              (fun i => (base + 1 + Z.of_nat i)%Z) (seq 0 (n - a))) as [_ T].
  unfold delays in *. rewrite flat_map_app, T. cbn [flat_map].
  now rewrite app_nil_r, length_map, length_seq.
Qed.

(** X17.  With [maxAttempts] zero or negative a failure before the first
    batch is thrown at once: the hook is not called and nothing is retried. *)
Theorem nonpositive_budget_never_retries (m : Q) e :
  maxAttempts options = Some m ->
  m <= 0 ->
  subscribe env 0 = mkSubscription [] (Throws e) ->
  isAbortError e = false ->
  forall fuel,
    retryCollectionSubscription options env (S fuel) = ([Subscribed 0], Exhausted e).
Proof.
  intros Hmax Hm Hsrc He fuel. apply run_ends.
  unfold iteration, initial. cbn [outerCount state attempt]. change (-1 + 1)%Z with 0%Z.
  rewrite Hsrc. cbn [batches ending forAwait]. unfold catchBlock. rewrite He.
  unfold budgetExhausted. rewrite Hmax.
  assert (Qle_bool m (inject_Z (Z.of_nat 0)) = true) as -> by now apply Qle_bool_iff.
  reflexivity.
Qed.
End StreakClaims.

(** ** More on the backoff *)

Section BackoffShape.
Context {Key Value Revision : Type}.
Variable options : RetryCollectionSubscriptionOptions Key Value Revision.

Lemma scaled_base_grows (k k' : nat) (b : Q) :
  0 <= b -> (k <= k')%nat -> pow2 (Z.of_nat k) * b <= pow2 (Z.of_nat k') * b.
Proof.
  intros Hb Hk. assert (L : pow2 (Z.of_nat k) <= pow2 (Z.of_nat k')) by (apply pow2_le; lia).
  nra.
Qed.

(** X5.  For safe integers [baseMs] and [maxDelayMs] (and, for [baseMs = 0],
    attempts below 1024, beyond which the backoff is [NaN]) the backoff
    computed in doubles is the exact [min(maxDelayMs, 2^k * baseMs)].  It
    never shrinks from one attempt to the next and never exceeds
    [maxDelayMs]; it doubles as long as the doubled value fits under
    [maxDelayMs], and once [2^k * baseMs] reaches [maxDelayMs] it stays at
    [maxDelayMs], also where [2^k * baseMs] overflows. *)
Theorem backoff_doubles_up_to_the_cap (k : nat) (b M : Q) :
  baseMs options = Fin b -> maxDelayMs options = Fin M ->
  safeMs b -> safeMs M -> (b == 0 -> (S k < 1024)%nat) ->
  exists B B' : Q,
    backoff options k = Fin B /\ backoff options (S k) = Fin B'
    /\ B == Qmin M (pow2 (Z.of_nat k) * b)
    /\ B <= B' /\ B <= M
    /\ (pow2 (Z.of_nat (S k)) * b <= M -> B' == 2 * B)
    /\ (M <= pow2 (Z.of_nat k) * b ->
        forall k', (k <= k')%nat -> (b == 0 -> (k' < 1024)%nat) ->
                   backoff options k' = Fin M).
Proof.
  intros Eb EM Sb SM Hk.
  assert (Hk0 : b == 0 -> (k < 1024)%nat) by (intros E; specialize (Hk E); lia).
  destruct (backoff_safe options Eb EM Sb SM Hk0) as (B & EB & EqB & _ & _).
  destruct (backoff_safe options Eb EM Sb SM Hk) as (B' & EB' & EqB' & _ & _).
  destruct (safeMs_isDouble Sb) as (_ & Hb & _).
  pose proof (@scaled_base_grows k (S k) b Hb (Nat.le_succ_diag_r k)) as Hstep.
  exists B, B'. split; [exact EB|]. split; [exact EB'|]. split; [exact EqB|].
  split; [|split; [|split]].
  - rewrite EqB, EqB'. apply Q.min_glb.
    + apply Q.le_min_l.
    + eapply Qle_trans; [apply Q.le_min_r | exact Hstep].
  - rewrite EqB. apply Q.le_min_l.
  - intros Hfit. rewrite EqB, EqB'. rewrite (Q.min_r _ _ Hfit).
    rewrite Q.min_r by lra.
    rewrite Nat2Z.inj_succ. unfold Z.succ. rewrite pow2_succ. ring.
  - intros Hcap k' Hle Hk'.
    destruct (backoff_safe options Eb EM Sb SM Hk') as (B'' & EB'' & _ & Top & _).
    rewrite EB''. f_equal. apply Top.
    eapply Qle_trans; [exact Hcap | now apply scaled_base_grows].
Qed.

(** X6.  For non-negative [baseMs] and [maxDelayMs], whole or not, with
    [maxDelayMs] a double below [2^1023] (and, for [baseMs = 0], attempts
    below 1024) and every draw [0 <= r < 1]: the backoff is a double [B]
    between 0 and [maxDelayMs], and the delay is a non-negative whole
    number, more than half of [B] minus half a millisecond and at most [B]
    plus half a millisecond; so it never exceeds [maxDelayMs] by more than
    half a millisecond. *)
Theorem delay_is_within_half_a_millisecond (k : nat) (r b M : Q) :
  baseMs options = Fin b -> maxDelayMs options = Fin M ->
  0 <= b -> 0 <= M -> isDouble M -> M < pow2 1023 ->
  (b == 0 -> (k < 1024)%nat) ->
  0 <= r -> r < 1 ->
  exists (B : Q) (d : Z),
    backoff options k = Fin B /\ 0 <= B /\ B <= M
    /\ delayMs options k r = Fin (inject_Z d)
    /\ (0 <= d)%Z
    /\ B * (1 # 2) - (1 # 2) < inject_Z d
    /\ inject_Z d <= B + (1 # 2)
    /\ inject_Z d <= M + (1 # 2).
Proof.
  intros Eb EM Hb HM DM BM Hk Hr0 Hr1.
  destruct (backoff_double options Eb EM Hb HM DM Hk) as (B & EB & DB & HB0 & HBM).
  assert (D2 : isDouble (2 * B)).
  { apply isDouble_twice; [assumption | assumption | lra]. }
  exists B. unfold delayMs. rewrite EB.
  assert (Hlo : exists lo, 0 <= lo /\ 2 * lo <= B /\ isDouble lo
                           /\ (B < 1 \/ B * (1 # 2) <= lo)).
  { destruct (Qlt_le_dec B 1) as [Small|Big].
    - exists 0. split; [|split; [|split]]; [lra | lra | apply isDouble_0 | now left].
    - exists (B / 2). assert (Eh : B / 2 == B * (1 # 2)) by field.
      split; [|split; [|split]]; [rewrite Eh; lra | rewrite Eh; lra | | right; rewrite Eh; lra].
      apply isDouble_half; [|exact DB].
      assert (pow2 (-1021) <= pow2 0) by (apply pow2_le; lia).
      change (pow2 0) with 1 in H. lra. }
  destruct Hlo as (lo & Hlo0 & Hlo1 & Dlo & Hlo2).
  destruct (@jittered_half B lo r) as (h & -> & Hh1 & Hh2); try assumption.
  cbn [Math_round]. exists (roundHalfUp h).
  destruct (roundHalfUp_bounds h) as [L U].
  assert (0 <= h) by lra.
  split; [reflexivity|]. split; [exact HB0|]. split; [exact HBM|].
  pose proof (roundHalfUp_nonneg H) as Hd.
  rewrite Zle_Qle in Hd. change (inject_Z 0) with 0 in Hd.
  split; [reflexivity|]. split; [now apply roundHalfUp_nonneg|].
  split; [destruct Hlo2; lra|]. split; lra.
Qed.
End BackoffShape.

(** ** The two branches, update by update *)

Section Branches.
Context {Key Value Revision : Type} `{KeyEq Key}.

Variable options : RetryCollectionSubscriptionOptions Key Value Revision.

Implicit Types st old : JsMap.t (K := Key) (V := Revision).
Implicit Types items : list (Key * Value).
Implicit Types updates : list (CollectionSubscriptionUpdate Key Value).

Lemma remove_missing k st : JsMap.get k st = None -> JsMap.remove k st = st.
Proof.
  induction st as [|[k0 v0] st IH]; simpl; [reflexivity|].
  destruct (key_eq_dec k k0); [discriminate|].
  intros Hg. now rewrite IH.
Qed.

Lemma applyLoop_app updates : forall updates' st,
  applyLoop options (updates ++ updates') st =
  match applyLoop options updates st with
  | (st', None) => applyLoop options updates' st'
  | thrown => thrown
  end.
Proof.
  induction updates as [|u updates IH]; intros updates' st; simpl.
  - reflexivity.
  - destruct (value u); [apply IH|].
    destruct (JsMap.has (key u) st); simpl; [apply IH | reflexivity].
Qed.

(** X7.  A batch of live updates that is handled leaves in State, for every
    key, what the last update of the batch for that key says: the revision of
    its value, or nothing when it removes the key; a key the batch does not
    mention keeps its entry.  The batch itself is yielded unchanged. *)
Theorem live_updates_last_one_wins outerCount innerCount updates st st' batch :
  (innerCount =? 0)%Z && negb (outerCount =? 0)%Z = false ->
  handleUpdates options outerCount innerCount updates st = (st', inr batch) ->
  batch = updates
  /\ forall k,
       JsMap.get k st' =
       match lastUpdate k updates with
       | Some (Some v) => Some (getRevision options v)
       | Some None => None
       | None => JsMap.get k st
       end.
Proof.
  intros Hbranch. unfold handleUpdates, applyBranch. rewrite Hbranch.
  destruct (applyLoop options updates st) as [st0 [e|]] eqn:Ea; [discriminate|].
  intros [= <- <-]. split; [reflexivity|].
  revert st Ea. induction updates as [|u updates IH]; intros st; simpl.
  - now intros [= <-].
  - destruct (value u) as [v|] eqn:Ev.
    + intros Ea k. rewrite (IH _ Ea k), get_set.
      destruct (lastUpdate k updates) as [[v'|]|]; try reflexivity.
      destruct (key_eq_dec k (key u)); reflexivity.
    + destruct (JsMap.has (key u) st); simpl; [|discriminate].
      intros Ea k. rewrite (IH _ Ea k), get_remove.
      destruct (lastUpdate k updates) as [[v'|]|]; try reflexivity.
      destruct (key_eq_dec k (key u)); reflexivity.
Qed.

(** X8.  The branch of live updates throws exactly when the batch holds a
    removal of a key that is not in State once the updates before it are
    applied; the error names the first such key, and State is left as those
    earlier updates made it. *)
Theorem live_update_throws_at_first_missing_key updates st st' e :
  applyLoop options updates st = (st', Some e) <->
  exists before u after,
    updates = before ++ u :: after
    /\ value u = None
    /\ applyLoop options before st = (st', None)
    /\ JsMap.get (key u) st' = None
    /\ e = UndefinedAlreadyUndefined (key u).
Proof.
  split.
  - revert st. induction updates as [|u updates IH]; intros st; simpl; [discriminate|].
    destruct (value u) as [v|] eqn:Ev.
    + intros Ea. destruct (IH _ Ea) as (before & u' & after & -> & Hv & Hb & Hg & ->).
      exists (u :: before), u', after. simpl. rewrite Ev. now repeat split.
    + unfold JsMap.has. destruct (JsMap.get (key u) st) eqn:Eg; simpl.
      * intros Ea. destruct (IH _ Ea) as (before & u' & after & -> & Hv & Hb & Hg & ->).
        exists (u :: before), u', after. simpl. rewrite Ev.
        unfold JsMap.has. rewrite Eg. simpl. now repeat split.
      * intros [= <- <-]. exists [], u, updates. simpl.
        rewrite (remove_missing _ _ Eg). now repeat split.
  - intros (before & u & after & -> & Hv & Hb & Hg & ->).
    rewrite applyLoop_app, Hb. simpl. rewrite Hv.
    unfold JsMap.has. rewrite Hg. simpl. now rewrite (remove_missing _ _ Hg).
Qed.

Lemma diffLoop_app items : forall updates st ns d,
  exists d',
    diffLoop options (map present items ++ updates) st ns d =
    diffLoop options updates (removeItems items st) (setItems options items ns) d'.
Proof.
  induction items as [|[k v] items IH]; intros updates st ns d; simpl.
  - now exists d.
  - apply IH.
Qed.

(** X9.  The diffing branch throws exactly when an item of the batch has no
    value; the error names the key of the first such item, nothing is
    yielded, and State is left without the keys of the items before it. *)
Theorem diff_throws_at_first_absent_value updates old st' e :
  diffBranch options updates old = (st', inl e) <->
  exists items u after,
    updates = map present items ++ u :: after
    /\ value u = None
    /\ e = UndefinedInInitialEmission (key u)
    /\ st' = removeItems items old.
Proof.
  unfold diffBranch. split.
  - destruct (diffLoop options updates old JsMap.empty []) as [s [e0|[ns d]]] eqn:El;
      [|discriminate].
    intros [= <- <-].
    generalize dependent (@nil (CollectionSubscriptionUpdate Key Value)).
    generalize dependent (@JsMap.empty Key Revision).
    revert old. induction updates as [|u updates IH]; intros old ns d; simpl;
      [discriminate|].
    destruct (value u) as [v|] eqn:Ev.
    + intros El. destruct (IH _ _ _ El) as (items & u' & after & -> & Hv & -> & ->).
      exists ((key u, v) :: items), u', after. unfold present at 1. simpl.
      repeat split; try assumption.
      destruct u as [ku vu]. simpl in *. now subst.
    + intros [= <- <-]. now exists [], u, updates.
  - intros (items & u & after & -> & Hv & -> & ->).
    destruct (diffLoop_app items (u :: after) old JsMap.empty []) as [d' ->].
    simpl. now rewrite Hv.
Qed.

(** X15.  What a reconciliation leaves in State is decided by the batch
    alone: whatever State was before, the same batch gives the same new
    State, or throws the same error. *)
Theorem reconciliation_forgets_old_state updates old old' :
  match diffBranch options updates old, diffBranch options updates old' with
  | (new, inr _), (new', inr _) => new = new'
  | (_, inl e), (_, inl e') => e = e'
  | _, _ => False
  end.
Proof.
  unfold diffBranch.
  generalize (@nil (CollectionSubscriptionUpdate Key Value)) at 1 as d.
  generalize (@nil (CollectionSubscriptionUpdate Key Value)) as d'.
  generalize (@JsMap.empty Key Revision) as ns.
  revert old old'. induction updates as [|u updates IH]; intros old old' ns d' d; simpl.
  - reflexivity.
  - destruct (value u) as [v|]; [|reflexivity]. apply IH.
Qed.

(** X10.  An empty batch means two things.  As the first batch after a
    resubscription it removes everything: one removal is yielded for every
    key of State, in State's order, and State is left empty.  As any other
    batch it changes nothing: the empty batch is yielded and State stays as
    it is. *)
Theorem empty_batch_clears_or_keeps_state (outerCount : Z) old :
  outerCount <> 0%Z ->
  handleUpdates options outerCount 0 [] old
  = (JsMap.empty, inr (map absent (JsMap.keys old)))
  /\ (forall innerCount, innerCount <> 0%Z ->
        handleUpdates options outerCount innerCount [] old = (old, inr []))
  /\ (forall innerCount,
        handleUpdates options 0 innerCount [] old = (old, inr [])).
Proof.
  intros Hoc. unfold handleUpdates. split; [|split].
  - destruct (Z.eqb_spec outerCount 0); [contradiction | reflexivity].
  - intros innerCount Hic.
    destruct (Z.eqb_spec innerCount 0); [contradiction | reflexivity].
  - intros innerCount. now rewrite andb_false_r.
Qed.
End Branches.

(** ** The diff, applied *)

Section DiffApplied.
Context {Key Value Revision : Type} `{KeyEq Key}.

Variable options : RetryCollectionSubscriptionOptions Key Value Revision.

Implicit Types st old : JsMap.t (K := Key) (V := Revision).
Implicit Types items : list (Key * Value).

Lemma applyLoop_upserts items : forall st,
  applyLoop options (map present items) st = (setItems options items st, None).
Proof.
  induction items as [|[k v] items IH]; intros st; simpl; [reflexivity|].
  apply IH.
Qed.

Lemma applyLoop_removals (ks : list Key) : forall st,
  NoDup ks ->
  (forall k, In k ks -> In k (JsMap.keys st)) ->
  exists st',
    applyLoop options (map absent ks) st = (st', None)
    /\ forall k, JsMap.get k st' = if occurs k ks then None else JsMap.get k st.
Proof.
  induction ks as [|k0 ks IH]; intros st ND Hin; simpl.
  - now exists st.
  - inversion ND as [|? ? Hn ND']; subst.
    assert (JsMap.has k0 st = true) as -> by (apply has_In, Hin; now left).
    simpl. destruct (IH (JsMap.remove k0 st) ND') as (st' & Ha & Hg).
    { intros k Hk. rewrite keys_remove, filter_In, negb_true_iff, occurs_not_In.
      split; [apply Hin; now right|]. intros [<-|[]]. contradiction. }
    exists st'. split; [exact Ha|]. intros k. rewrite Hg, get_remove.
    change (k0 :: ks) with ([k0] ++ ks). rewrite occurs_app, occurs_single.
    destruct (key_eq_dec k k0); simpl; [now destruct (occurs k ks) | reflexivity].
Qed.

Lemma changedItems_repeated old items : forall earlier item,
  In item items -> In (fst item) earlier ->
  In item (changedItems options old earlier items).
Proof.
  induction items as [|i items IH]; intros earlier item; simpl; [tauto|].
  intros [->|Hi] He.
  - apply occurs_In in He. rewrite He, orb_true_r. now left.
  - assert (In item (changedItems options old (earlier ++ [fst i]) items))
      by (apply IH; [assumption | apply in_app_iff; now left]).
    destruct (differs options old i || occurs (fst i) earlier); simpl; auto.
Qed.

(** The last changed item of a key is the last item of that key. *)
Lemma lastValue_changed old k items : forall earlier v,
  lastValue k (changedItems options old earlier items) = Some v ->
  lastValue k items = Some v.
Proof.
  induction items as [|i items IH]; intros earlier v; simpl; [discriminate|].
  destruct (differs options old i || occurs (fst i) earlier) eqn:Eemit; simpl.
  - destruct (lastValue k (changedItems options old (earlier ++ [fst i]) items))
      as [v'|] eqn:El.
    + intros [= ->]. now rewrite (IH _ _ El).
    + destruct (key_eq_dec k (fst i)) as [->|n]; [|discriminate].
      intros [= <-].
      destruct (lastValue (fst i) items) as [v2|] eqn:E2; [|reflexivity].
      exfalso.
      assert (Hin : In (fst i) (map fst items)) by (apply lastValue_In; eauto).
      apply in_map_iff in Hin as (item & Hk & Hin).
      assert (Hc : In item (changedItems options old (earlier ++ [fst i]) items)).
      { apply changedItems_repeated; [assumption|].
        rewrite Hk. apply in_app_iff. right. now left. }
      assert (Hex : exists w, lastValue (fst i)
                                (changedItems options old (earlier ++ [fst i]) items)
                              = Some w).
      { apply lastValue_In. apply in_map_iff. now exists item. }
      destruct Hex as [w Hw]. congruence.
  - intros El. now rewrite (IH _ _ El).
Qed.

(** A key whose items were all left out of the diff is in old State with an
    equal revision. *)
Lemma lastValue_unchanged old k items : forall earlier v,
  lastValue k (changedItems options old earlier items) = None ->
  lastValue k items = Some v ->
  exists stored,
    JsMap.get k old = Some stored
    /\ equality options stored (getRevision options v) = true.
Proof.
  induction items as [|i items IH]; intros earlier v; simpl; [discriminate|].
  destruct (differs options old i || occurs (fst i) earlier) eqn:Eemit; simpl.
  - destruct (lastValue k (changedItems options old (earlier ++ [fst i]) items))
      as [v'|] eqn:El; [discriminate|].
    destruct (key_eq_dec k (fst i)) as [->|n]; [discriminate|].
    intros _. destruct (lastValue k items) as [v2|] eqn:E2; [|discriminate].
    intros [= ->]. exact (IH _ _ El eq_refl).
  - intros El. destruct (lastValue k items) as [v2|] eqn:E2.
    + intros [= ->]. exact (IH _ _ El eq_refl).
    + destruct (key_eq_dec k (fst i)) as [->|n]; [|discriminate].
      intros [= <-]. apply orb_false_iff in Eemit as [Ed _].
      unfold differs in Ed. destruct (JsMap.get (fst i) old) as [stored|]; [|discriminate].
      exists stored. split; [reflexivity|]. now apply negb_false_iff in Ed.
Qed.

(** X11.  The diff is sound: the batch a reconciliation yields, applied to
    the old State as live updates, is accepted without a throw, and gives a
    State with the keys of the new one, each with the very revision of the
    new State or, where the diff kept the old entry, with a revision equal to
    it under the injected equality. *)
Theorem diff_applied_to_old_state_gives_new_state updates old new batch :
  JsMap.wf old ->
  diffBranch options updates old = (new, inr batch) ->
  exists st',
    applyLoop options batch old = (st', None)
    /\ forall k,
         match JsMap.get k st', JsMap.get k new with
         | Some kept, Some revision =>
             kept = revision \/ equality options kept revision = true
         | None, None => True
         | _, _ => False
         end.
Proof.
  intros W Hd.
  assert (Hp : exists items, updates = map present items).
  { unfold diffBranch in Hd.
    destruct (diffLoop options updates old JsMap.empty [])
      as [st0 [e|[ns d]]] eqn:El; [discriminate|].
    eapply all_present_items, diffLoop_all_present, El. }
  destruct Hp as [items ->].
  rewrite diffBranch_present in Hd. injection Hd as <- <-.
  rewrite applyLoop_app, applyLoop_upserts.
  assert (Hr : exists st',
             applyLoop options (map absent (vanished old items))
               (setItems options (changedItems options old [] items) old)
             = (st', None)
             /\ forall k,
                  JsMap.get k st' =
                  if occurs k (vanished old items) then None
                  else JsMap.get k
                         (setItems options (changedItems options old [] items) old)).
  { apply applyLoop_removals.
    - unfold vanished. apply NoDup_filter. exact W.
    - intros k Hk. unfold vanished in Hk. apply filter_In in Hk as [Hk _].
      rewrite keys_setItems. apply in_app_iff. now left. }
  destruct Hr as (st' & Ha & Hg).
  exists st'. split; [exact Ha|]. intros k.
  rewrite Hg, !get_setItems. simpl.
  destruct (occurs k (vanished old items)) eqn:Ev.
  - apply occurs_In in Ev. unfold vanished in Ev.
    apply filter_In in Ev as [_ Ev]. apply negb_true_iff, occurs_not_In in Ev.
    destruct (lastValue k items) as [v|] eqn:El; [|exact I].
    apply Ev, lastValue_In. eauto.
  - destruct (lastValue k (changedItems options old [] items)) as [v|] eqn:Ec.
    + erewrite lastValue_changed by exact Ec. now left.
    + destruct (lastValue k items) as [v|] eqn:El.
      * assert (Hu : exists stored,
                   JsMap.get k old = Some stored
                   /\ equality options stored (getRevision options v) = true)
          by (eapply lastValue_unchanged; eassumption).
        destruct Hu as (stored & -> & He).
        now right.
      * destruct (JsMap.get k old) eqn:Eg; [|exact I].
        apply occurs_not_In in Ev. apply Ev. unfold vanished.
        apply filter_In. split.
        -- apply has_In. unfold JsMap.has. now rewrite Eg.
        -- apply negb_true_iff, occurs_not_In. intros Hin.
           apply lastValue_In in Hin as [v Hv]. congruence.
Qed.

(** Both branches keep the keys of State distinct, whether they yield or
    throw. *)
Lemma handleUpdates_wf outerCount innerCount updates st :
  JsMap.wf st ->
  JsMap.wf (fst (handleUpdates options outerCount innerCount updates st)).
Proof.
  unfold handleUpdates, diffBranch, applyBranch.
  destruct ((innerCount =? 0)%Z && negb (outerCount =? 0)%Z).
  - intros W.
    assert (G : forall st ns d,
               JsMap.wf st -> JsMap.wf ns ->
               JsMap.wf (fst (diffLoop options updates st ns d))
               /\ match snd (diffLoop options updates st ns d) with
                  | inr (ns', _) => JsMap.wf ns'
                  | inl _ => True
                  end).
    { clear st W. induction updates as [|u updates IH]; intros st ns d W Wn; simpl.
      - now split.
      - destruct (value u); [|now split].
        apply IH; [now apply wf_remove | now apply wf_set]. }
    specialize (G st JsMap.empty [] W (NoDup_nil _)).
    destruct (diffLoop options updates st JsMap.empty []) as [st0 [e|[ns d]]];
      simpl in *; tauto.
  - intros W.
    assert (G : forall st, JsMap.wf st -> JsMap.wf (fst (applyLoop options updates st))).
    { clear st W. induction updates as [|u updates IH]; intros st W; simpl.
      - exact W.
      - destruct (value u); [apply IH; now apply wf_set|].
        destruct (JsMap.has (key u) st); simpl;
          [apply IH|]; now apply wf_remove. }
    specialize (G st W).
    destruct (applyLoop options updates st) as [st0 [e|]]; exact G.
Qed.
End DiffApplied.

(** * The repository's tests and other concrete runs *)

Import Scenarios.

Local Open Scope string_scope.
Local Open Scope list_scope.

(** test('basic resubscription') *)
Example basic_resubscription :
  retryCollectionSubscription (withHook quietHook) basicResubscription 2 =
  ([ Subscribed 0;
     Yielded [upsert "1" "1-1"];
     Yielded [upsert "2" "2-1"; removal "1"];
     OnErrorCalled (OtherError 0) None None;
     Subscribed 1;
     Yielded [upsert "1" "1-2"] ],
   Suspended).
Proof. reflexivity. Qed.

(** test('backoff') *)
Example backoff_test :
  retryCollectionSubscription (withHook quietHook) backoffTest 5 =
  ([ Subscribed 0; OnErrorCalled (OtherError 1) (Some 0%nat) (Some (Fin 750)); Delayed (Fin 750);
     Subscribed 1; OnErrorCalled (OtherError 2) (Some 1%nat) (Some (Fin 1500)); Delayed (Fin 1500);
     Subscribed 2; Yielded [upsert "1" "1"]; OnErrorCalled (OtherError 3) None None;
     Subscribed 3; OnErrorCalled (OtherError 4) (Some 0%nat) (Some (Fin 750)); Delayed (Fin 750);
     Subscribed 4; Yielded [] ],
   Suspended).
Proof. reflexivity. Qed.

(** "Diff deletion inference": State [{a: 1, b: 2}] and snapshot [(a, 1)] give
    the batch [{key: b}]. *)
Example diff_deletion_inference :
  diffBranch defaults (map present snapshotA) stateAB = (stateA, inr [removal "b"]).
Proof. reflexivity. Qed.

(** ** Protocol violations: claims C1, C2 and C9 *)

(** An error thrown while a batch is handled is caught by the generator's own
    [catch]; when it is not a cancellation and the hook returns, the loop
    goes on with [attempt = 0]. *)
Lemma thrown_while_handling_is_retried {Key Value Revision : Type} `{KeyEq Key}
    (options : RetryCollectionSubscriptionOptions Key Value Revision)
    (env : Environment Key Value) (ls : LoopState Key Revision)
    first more events st' attempt' e :
  let oc := (outerCount ls + 1)%Z in
  batches (subscribe env oc) = first :: more ->
  forAwait options oc (-1) (first :: more) (ending (subscribe env oc))
           (state ls) (attempt ls)
  = (events, st', attempt', TryThrows e) ->
  isProtocolViolation e = true ->
  (forall hook, onError options = Some hook -> hook oc e None None = None) ->
  exists events',
    iteration options env ls = (events', inr (mkLoopState st' (Some 0%nat) oc)).
Proof.
  intros oc Hbatches Hfor He Hhook.
  pose proof (forAwait_attempt options oc (first :: more)
                (ending (subscribe env oc)) (-1) (state ls) (attempt ls)) as A.
  rewrite Hfor in A. cbn [fst snd] in A. subst attempt'.
  unfold iteration. fold oc. rewrite Hbatches, Hfor.
  unfold catchBlock, callOnError.
  rewrite (protocol_violation_not_abort e He).
  destruct (onError options) as [hook|].
  - rewrite (Hhook hook eq_refl). now eexists.
  - now eexists.
Qed.

(** C1, on the inputs of the repository's tests.  A delete for a key that is
    not in State during a live update, and an absent value in the first batch
    after a resubscription, are both thrown inside the [try] block: the hook
    is called with [(error, undefined, undefined)] and the source is
    subscribed again.  The consumer never receives the error. *)
Theorem protocol_violation_is_caught_and_retried :
  retryCollectionSubscription (withHook quietHook) undefinedNotInState 2 =
  ([ Subscribed 0; Yielded [];
     OnErrorCalled (UndefinedAlreadyUndefined "1") None None;
     Subscribed 1 ],
   Suspended)
  /\ retryCollectionSubscription (withHook quietHook) undefinedAfterRetry 3 =
     ([ Subscribed 0; Yielded [];
        OnErrorCalled (OtherError 0) None None;
        Subscribed 1;
        OnErrorCalled (UndefinedInInitialEmission "1") None None;
        Subscribed 2 ],
      Suspended)
  /\ retryCollectionSubscription defaults undefinedNotInState 2 =
     ([Subscribed 0; Yielded []; Subscribed 1], Suspended)
  /\ retryCollectionSubscription defaults undefinedAfterRetry 3 =
     ([Subscribed 0; Yielded []; Subscribed 1; Subscribed 2], Suspended)
  /\ rejection (snd (retryCollectionSubscription defaults undefinedNotInState 2)) = None
  /\ rejection (snd (retryCollectionSubscription defaults undefinedAfterRetry 3)) = None.
Proof. repeat split; reflexivity. Qed.

(** C2, on the first batch of test('undefined value in initial emission').
    The batch sets key "1" in State and then throws at key "2", so it is
    never yielded; the error is caught and the source subscribed again.  The
    next snapshot holds key "1" unchanged, the diff is empty, and State holds
    a key the consumer has never received. *)
Theorem dropped_batch_stays_in_state :
  let result := retryCollectionSubscription defaults droppedBatch 2 in
  fst result = [Subscribed 0; Subscribed 1; Yielded []]
  /\ snd result = Running (mkLoopState [("1", "1")] (Some 0%nat) 1)
  /\ consumerKeys (fst result) = []
  /\ ~ sameKeys (JsMap.keys [("1", "1")]) (consumerKeys (fst result)).
Proof.
  repeat split; try reflexivity.
  intros Hs. destruct (proj1 (Hs "1")). now left.
Qed.

(** C9.  The first batch of the first subscription goes through the branch
    of live updates, not through the check of an initial emission.  A batch
    that sets a key and removes it again is yielded as it is, while the same
    batch after a resubscription is a violation; and the first batch of
    test('undefined value in initial emission') throws the error of a live
    update, not the one of an initial emission. *)
Theorem first_batch_is_not_checked_as_initial_emission :
  handleUpdates defaults 0 0 [upsert "1" "1"; removal "1"] JsMap.empty
  = ([], inr [upsert "1" "1"; removal "1"])
  /\ handleUpdates defaults 1 0 [upsert "1" "1"; removal "1"] JsMap.empty
     = ([], inl (UndefinedInInitialEmission "1"))
  /\ retryCollectionSubscription defaults setThenRemoved 1
     = ([Subscribed 0; Yielded [upsert "1" "1"; removal "1"]], Suspended)
  /\ handleUpdates defaults 0 0 [upsert "1" "1"; removal "2"] JsMap.empty
     = ([("1", "1")], inl (UndefinedAlreadyUndefined "2"))
  /\ handleUpdates defaults 1 0 [upsert "1" "1"; removal "2"] JsMap.empty
     = ([], inl (UndefinedInInitialEmission "2"))
  /\ retryCollectionSubscription defaults undefinedInInitialEmission 2
     = ([Subscribed 0; Subscribed 1], Suspended).
Proof. repeat split; reflexivity. Qed.

(** ** Counterexamples *)

(** C3 as stated fails when the snapshot repeats a key: with State [{a: 1}]
    and snapshot [(a, 1), (a, 1)] the batch is [{a, 1}], not the empty one. *)
Lemma repeated_key_is_emitted :
  snd (diffBranch defaults (map present snapshotAA) stateA) = inr [upsert "a" "1"]
  /\ statedDiff defaults stateA snapshotAA = []
  /\ snd (diffBranch defaults (map present snapshotAA) stateA)
     <> inr (statedDiff defaults stateA snapshotAA).
Proof. repeat split; try reflexivity. discriminate. Qed.


(** The delay is the formula of C6 evaluated in doubles, not exactly: with
    the default options, attempt 0 and the draw [56294995342131 / 2^51], the
    product [1000 * (1 + r)] is rounded up to 1025, and the delay is 513
    where the exact [round(1000 * (1 + r) / 2)] is 512. *)
Example double_rounding_moves_the_delay :
  isDouble (56294995342131 # 2251799813685248)
  /\ delayMs defaults 0 (56294995342131 # 2251799813685248) = Fin 513
  /\ roundHalfUp (Qmin 15000 (1000 * Qpower 2 (Z.of_nat 0))
                  * (1 + (56294995342131 # 2251799813685248)) / 2) = 512%Z.
Proof. repeat split; vm_compute; reflexivity. Qed.

(** With [baseMs = 0] the delay of attempt 1024 is [NaN]:
    [Math.pow(2, 1024)] is [Infinity] and [Infinity * 0] is [NaN]. *)
Example zero_base_delay_is_NaN :
  backoff zeroBase 1023 = Fin 0
  /\ backoff zeroBase 1024 = NaN
  /\ delayMs zeroBase 1024 (1 # 2) = NaN.
Proof. repeat split; vm_compute; reflexivity. Qed.

(** C7 as stated fails in two ways.  A snapshot that repeats a key of State
    with its stored revision has the keys and the revisions of State, yet
    the batch is not empty: State [{a: 1}] and the snapshot
    [(a, 1), (a, 1)] yield [{a, 1}].  And under an equality that relates
    distinct revisions the new State is not the old one: with an equality
    that always holds, State [{a: 1}] and the snapshot [(a, 2)] give the
    empty batch and the State [{a: 2}]. *)
Lemma identical_snapshot_changes_batch_or_state :
  (handleUpdates defaults 1 0 (map present snapshotAA) stateA
   = (stateA, inr [upsert "a" "1"])
   /\ (forall k, In k (JsMap.keys stateA) <-> In k (map fst snapshotAA))
   /\ (forall item, In item snapshotAA ->
         exists stored,
           JsMap.get (fst item) stateA = Some stored
           /\ equality defaults stored (getRevision defaults (snd item)) = true))
  /\ (handleUpdates anyRevision 1 0 (map present snapshotA2) stateA
      = ([("a", "2")], inr [])
      /\ (forall k, In k (JsMap.keys stateA) <-> In k (map fst snapshotA2))
      /\ (forall item, In item snapshotA2 ->
            exists stored,
              JsMap.get (fst item) stateA = Some stored
              /\ equality anyRevision stored (getRevision anyRevision (snd item)) = true)
      /\ [("a", "2")] <> stateA).
Proof.
  split; [split; [reflexivity | split] | split; [reflexivity | split; [|split]]].
  - intros k. simpl. tauto.
  - intros item [<-|[<-|[]]]; eexists; split; reflexivity.
  - intros k. simpl. tauto.
  - intros item [<-|[]]. eexists. split; reflexivity.
  - discriminate.
Qed.

(** ** The theorems at concrete inputs *)

(** C4 with [maxAttempts = 2]: three subscriptions, two hook calls, and the
    third failure is thrown. *)
Lemma retries_stop_at_maxAttempts_at_2 :
  exists events,
    retryCollectionSubscription (withMaxAttempts 2 quietHook) alwaysFailing 3
    = (events, Exhausted (OtherError 2))
    /\ rejection (snd (retryCollectionSubscription
                         (withMaxAttempts 2 quietHook) alwaysFailing 3))
       = Some (OtherError 2)
    /\ events =
       flat_map (fun i => retriedAttempt (withMaxAttempts 2 quietHook)
                            alwaysFailing (OtherError i) i) (seq 0 2)
       ++ [Subscribed 2]
    /\ subscriptions events = [0; 1; 2]%Z
    /\ map (fun call => snd (fst call)) (hookCalls events) = [Some 0; Some 1]%nat
    /\ List.length (hookCalls events) = 2%nat
    /\ List.length (delays events) = 2%nat.
Proof.
  apply (retries_stop_at_maxAttempts
           (withMaxAttempts 2 quietHook) alwaysFailing
           (n := 2) (fun i => OtherError i) (hook := quietHook)).
  - reflexivity.
  - reflexivity.
  - reflexivity.
  - intros i. simpl. now rewrite Nat2Z.id.
  - reflexivity.
  - reflexivity.
  - lia.
Defined.

(** C5 on test('basic resubscription'): the first subscription delivers two
    batches and fails. *)
Lemma failure_after_batch_retries_at_once_in_basic_resubscription :
  iteration (withHook quietHook) basicResubscription initial
  = ([ Subscribed 0;
       Yielded [upsert "1" "1-1"];
       Yielded [upsert "2" "2-1"; removal "1"];
       OnErrorCalled (OtherError 0) None None ],
     inr (mkLoopState [("2", "2-1")] (Some 0%nat) 0)).
Proof.
  refine (proj1 (proj2
    (failure_after_batch_retries_at_once
       (withHook quietHook) basicResubscription
       initial (first := [upsert "1" "1-1"])
       (more := [[upsert "2" "2-1"; removal "1"]])
       (hook := quietHook)
       (events := [Yielded [upsert "1" "1-1"];
                   Yielded [upsert "2" "2-1"; removal "1"]])
       (st' := [("2", "2-1")]) (attempt' := None) (e := OtherError 0)
       _ _ _ _ _))); reflexivity.
Defined.


(** C7 on "diff idempotence": State [{a: 1, b: 2}] and the snapshot
    [(a, 1), (b, 2)]. *)
Lemma identical_snapshot_yields_empty_batch_for_ab :
  exists newState,
    handleUpdates defaults 1 0 (map present snapshotAB) stateAB = (newState, inr [])
    /\ newState = stateAB.
Proof.
  destruct (identical_snapshot_yields_empty_batch defaults stateAB snapshotAB
              (outerCount := 1))
    as (newState & Hhandle & _ & _ & _ & _ & Hsame).
  - discriminate.
  - repeat constructor; simpl; intuition discriminate.
  - intros k Hk. exact Hk.
  - intros item [<-|[<-|[]]]; eexists; split; reflexivity.
  - exists newState. split; [exact Hhandle|].
    apply Hsame; [|reflexivity].
    intros a b. apply String.eqb_eq.
Defined.

(** C8 with a hook that rethrows, before any batch. *)
Lemma raising_hook_ends_the_run_at_first_failure :
  retryCollectionSubscription (withHook rethrowingHook) backoffTest 1
  = ([Subscribed 0; OnErrorCalled (OtherError 1) (Some 0%nat) (Some (Fin 750))],
     HookRaised (OtherError 1)).
Proof.
  refine (proj1
    (raising_hook_ends_the_run
       (withHook rethrowingHook) backoffTest
       initial (hook := rethrowingHook) (events := []) (st' := [])
       (attempt' := Some 0%nat) (e := OtherError 1) (raised := OtherError 1)
       _ _ _ _ _ 0)); reflexivity.
Defined.

(** C10 with [maxAttempts = 1]: five iterations, five subscriptions, still
    running. *)
Lemma budget_only_counts_failures_before_the_first_batch_at_1 :
  exists events ls,
    retryCollectionSubscription (withMaxAttempts 1 quietHook) failingAfterBatch 5
    = (events, Running ls)
    /\ (forall e,
          snd (retryCollectionSubscription
                 (withMaxAttempts 1 quietHook) failingAfterBatch 5)
          <> Exhausted e)
    /\ subscriptions events = [0; 1; 2; 3; 4]%Z
    /\ List.length (subscriptions events) = 5%nat.
Proof.
  apply (budget_only_counts_failures_before_the_first_batch
           (withMaxAttempts 1 quietHook) failingAfterBatch).
  - intros i _. split; [discriminate|].
    exists (OtherError (Z.to_nat i)). split; reflexivity.
  - intros hook [= <-] i e. reflexivity.
Defined.

(** ** The further theorems at concrete inputs *)

(** X1: the first source is cancelled after one batch. *)
Lemma cancellation_ends_the_run_after_a_batch :
  run defaults cancelledAfterBatch 1 initial
  = ([Subscribed 0; Yielded [upsert "1" "1"]], Cancelled AbortError).
Proof.
  refine (proj1 (cancellation_ends_the_run defaults cancelledAfterBatch initial
                   (events := [Yielded [upsert "1" "1"]]) (st' := [("1", "1")])
                   (attempt' := None) (e := AbortError) _ _ 0)); reflexivity.
Defined.

(** X2: the first source delivers two batches and completes. *)
Lemma completion_ends_the_run_after_two_batches :
  run defaults completing 1 initial
  = ([Subscribed 0; Yielded [upsert "1" "1"]; Yielded [removal "1"]], Returned).
Proof.
  refine (proj1 (completion_ends_the_run defaults completing initial
                   (events := [Yielded [upsert "1" "1"]; Yielded [removal "1"]])
                   (st' := []) (attempt' := None) _ 0)); reflexivity.
Defined.

(** X3: the signal aborts during the first delay. *)
Lemma abort_during_the_delay_ends_the_run_at_once :
  snd (run (withHook quietHook) abortedWhileWaiting 1 initial) = DelayCancelled
  /\ rejection (snd (run (withHook quietHook) abortedWhileWaiting 1 initial))
     = Some AbortError
  /\ subscriptions (fst (run (withHook quietHook) abortedWhileWaiting 1 initial)) = [0%Z]
  /\ delays (fst (run (withHook quietHook) abortedWhileWaiting 1 initial)) = [Fin 750].
Proof.
  destruct (abort_during_the_delay_ends_the_run (withHook quietHook)
              abortedWhileWaiting initial (n := 0) (e := OtherError 0))
    with (fuel := 0%nat) as (H1 & H2 & H3 & H4 & _);
    try reflexivity; try (intros hook [= <-]; reflexivity).
  split; [exact H1|]. split; [exact H2|]. split; [exact H3 | exact H4].
Defined.

(** X4: four iterations of a source that always fails, with the default
    budget. *)
Lemma default_budget_never_gives_up_after_4 :
  subscriptions (fst (retryCollectionSubscription (withHook quietHook) alwaysFailing 4))
  = [0; 1; 2; 3]%Z
  /\ delays (fst (retryCollectionSubscription (withHook quietHook) alwaysFailing 4))
     = [Fin 750; Fin 1500; Fin 3000; Fin 6000]
  /\ snd (retryCollectionSubscription (withHook quietHook) alwaysFailing 4)
     = Running (mkLoopState [] (Some 4%nat) 3).
Proof.
  destruct (default_budget_never_gives_up (withHook quietHook) alwaysFailing
              (fun j => OtherError j)) with (fuel := 4%nat) as (H1 & H2 & H3).
  - reflexivity.
  - intros j. simpl. now rewrite Nat2Z.id.
  - reflexivity.
  - intros hook [= <-]. reflexivity.
  - reflexivity.
  - split; [exact H2|]. split; [exact H3|]. now rewrite H1.
Defined.

(** X5 on the example of the documentation: 1000ms, 2000ms, 3000ms, 3000ms
    and so on, also where [2^k * 1000] overflows. *)
Lemma backoff_doubles_up_to_the_cap_at_3000 :
  backoff cappedAt3000 0 = Fin 1000
  /\ backoff cappedAt3000 1 = Fin 2000
  /\ backoff cappedAt3000 2 = Fin 3000
  /\ backoff cappedAt3000 7 = Fin 3000
  /\ backoff cappedAt3000 2000 = Fin 3000.
Proof.
  destruct (@backoff_doubles_up_to_the_cap _ _ _ cappedAt3000 2 1000 3000)
    as (B & B' & _ & _ & _ & _ & _ & _ & Hcap).
  - reflexivity.
  - reflexivity.
  - exists 1000%Z. split; [split; [discriminate | reflexivity] | reflexivity].
  - exists 3000%Z. split; [split; [discriminate | reflexivity] | reflexivity].
  - intros E. discriminate E.
  - split; [reflexivity|]. split; [reflexivity|]. split; [reflexivity|].
    split; apply Hcap; try discriminate; try lia; intros E; discriminate E.
Defined.

(** X6 with a base of half a millisecond. *)
Lemma delay_is_within_half_a_millisecond_for_half_base :
  exists (B : Q) (d : Z),
    backoff halfMs 0 = Fin B /\ (0 <= B)%Q /\ (B <= 15000)%Q
    /\ delayMs halfMs 0 0 = Fin (inject_Z d)
    /\ (0 <= d)%Z
    /\ (B * (1 # 2) - (1 # 2) < inject_Z d)%Q
    /\ (inject_Z d <= B + (1 # 2))%Q
    /\ (inject_Z d <= 15000 + (1 # 2))%Q.
Proof.
  apply (@delay_is_within_half_a_millisecond _ _ _ halfMs 0 0 (1 # 2) 15000);
    try reflexivity; discriminate.
Defined.

(** X7: State [{a: 1, b: 2}] and a live batch that sets "a" twice and
    removes "b". *)
Lemma live_updates_last_one_wins_on_ab :
  liveBatch = liveBatch
  /\ forall k,
       JsMap.get k [("a", "3")] =
       match lastUpdate k liveBatch with
       | Some (Some v) => Some v
       | Some None => None
       | None => JsMap.get k stateAB
       end.
Proof.
  apply (live_updates_last_one_wins defaults 0 3 liveBatch stateAB); reflexivity.
Defined.

(** X10: State [{a: 1, b: 2}] and an empty batch. *)
Lemma empty_batch_clears_or_keeps_state_of_ab :
  handleUpdates defaults 1 0 [] stateAB = ([], inr [removal "a"; removal "b"])
  /\ handleUpdates defaults 1 1 [] stateAB = (stateAB, inr [])
  /\ handleUpdates defaults 0 0 [] stateAB = (stateAB, inr []).
Proof.
  destruct (empty_batch_clears_or_keeps_state defaults (outerCount := 1) stateAB)
    as (Hfirst & Hlater & Hvery); [discriminate|].
  split; [exact Hfirst|]. split; [apply Hlater; discriminate | apply Hvery].
Defined.

(** X11: State [{a: 1, b: 2}] and the snapshot [(a, 9), (c, 3)]. *)
Lemma diff_applied_to_old_state_gives_new_state_on_ab :
  exists st',
    applyLoop defaults [upsert "a" "9"; upsert "c" "3"; removal "b"] stateAB
    = (st', None)
    /\ forall k,
         match JsMap.get k st', JsMap.get k [("a", "9"); ("c", "3")] with
         | Some kept, Some revision =>
             kept = revision \/ equality defaults kept revision = true
         | None, None => True
         | _, _ => False
         end.
Proof.
  apply (diff_applied_to_old_state_gives_new_state defaults
           (map present snapshotAC) (old := stateAB)).
  - repeat constructor; simpl; intuition discriminate.
  - reflexivity.
Defined.

(** X12 on the first iteration of test('basic resubscription'). *)
Lemma iteration_in_step_in_basic_resubscription :
  JsMap.keys [("2", "2-1")] = ["2"]
  /\ sameKeys (JsMap.keys [("2", "2-1")])
       (fold_left consumerReceive
          [ Subscribed 0;
            Yielded [upsert "1" "1-1"];
            Yielded [upsert "2" "2-1"; removal "1"];
            OnErrorCalled (OtherError 0) None None ]
          []).
Proof.
  split; [reflexivity|].
  apply (iteration_in_step (withHook quietHook) basicResubscription initial
           (held := []) (ls' := mkLoopState [("2", "2-1")] (Some 0%nat) 0)).
  - reflexivity.
  - intros e [= <-]. reflexivity.
  - intros k. reflexivity.
Defined.

(** X13 on the second subscription of test('basic resubscription'). *)
Lemma batches_pass_through_unchanged_in_basic_resubscription :
  exists diff,
    snd (diffBranch defaults [upsert "2" "2-1"; upsert "1" "1-2"] [("2", "2-1")])
    = inr diff
    /\ [Yielded [upsert "1" "1-2"]; Yielded [removal "2"]]
       = Yielded diff :: map Yielded [[removal "2"]].
Proof.
  refine (proj2 (batches_pass_through_unchanged defaults 1
                   [[upsert "2" "2-1"; upsert "1" "1-2"]; [removal "2"]]
                   NeverSettles [("2", "2-1")] None
                   (events := [Yielded [upsert "1" "1-2"]; Yielded [removal "2"]])
                   (st' := [("1", "1-2")]) (attempt' := None)
                   (result := TryNeverSettles) _ _) _ _ _ eq_refl).
  - reflexivity.
  - discriminate.
  - discriminate.
Defined.

(** X16: after a batch was received and lost the budget of 2 allows two more
    retries. *)
Lemma budget_counts_the_current_streak_after_a_batch :
  retryCollectionSubscription (withMaxAttempts 2 quietHook) failingAfterFirstBatch 1
  = ([Subscribed 0; Yielded [upsert "1" "1"]; OnErrorCalled (OtherError 0) None None],
     Running (mkLoopState [("1", "1")] (Some 0%nat) 0))
  /\ snd (run (withMaxAttempts 2 quietHook) failingAfterFirstBatch 3
            (mkLoopState [("1", "1")] (Some 0%nat) 0))
     = Exhausted (OtherError 3)
  /\ List.length
       (delays (fst (run (withMaxAttempts 2 quietHook) failingAfterFirstBatch 3
                       (mkLoopState [("1", "1")] (Some 0%nat) 0))))
     = 2%nat.
Proof.
  split; [reflexivity|].
  destruct (budget_counts_the_current_streak (withMaxAttempts 2 quietHook)
              failingAfterFirstBatch 0 (fun j => OtherError (S j))
              (n := 2) (a := 0) [("1", "1")])
    with (fuel := 3%nat) as (H1 & H2).
  - reflexivity.
  - lia.
  - intros j. unfold failingAfterFirstBatch, subscribe.
    destruct (Z.eqb_spec (0 + 1 + Z.of_nat j) 0) as [E|E]; [lia|].
    do 3 f_equal. lia.
  - reflexivity.
  - intros hook [= <-]. reflexivity.
  - reflexivity.
  - lia.
  - split; [now rewrite H1 | exact H2].
Defined.

(** X17: [maxAttempts = 0]. *)
Lemma nonpositive_budget_never_retries_at_0 :
  retryCollectionSubscription (withMaxAttempts 0 quietHook) alwaysFailing 1
  = ([Subscribed 0], Exhausted (OtherError 0)).
Proof.
  apply (nonpositive_budget_never_retries (withMaxAttempts 0 quietHook)
           alwaysFailing (m := 0) (e := OtherError 0)).
  - reflexivity.
  - discriminate.
  - reflexivity.
  - reflexivity.
Defined.
